(** * BSignals concurrency core: SafeQueueVariant and WheeledThreadPool

    A shallow embedding of [inc/BSignals/details/SafeQueueVariant.hpp] and of
    [inc/BSignals/details/WheeledThreadPool.h], and the properties of the
    shutdown-aware queue and of the wheeled thread pool stated over it.

    Conventions of the embedding.
    - One object of the class template is a record holding its data members.
      The [std::queue<T>] member is a list whose head is [front()] and to
      whose end [push] appends.  The condition variable is the list of the
      threads currently blocked in it.
    - The [std::shared_timed_mutex] is not a field: every member function
      holds it from its first statement to its return, except while it is
      blocked in [c.wait] or [c.wait_for], so a member function is a sequence
      of atomic sections separated by waits.  What the other threads do to
      the object while the caller is blocked is an input of the blocking
      functions (a schedule of wake-ups).  A wake-up whose schedule is empty
      is a spurious wake-up.  [enqueue] takes the mutex in shared mode and
      the first statement of [stop] writes the flag without the mutex; their
      effects are nevertheless taken one at a time, in some order.
    - [front()] and [pop()] on an empty [std::queue] have undefined
      behaviour; the embedding reports it as such instead of inventing a
      value.
    - [unsigned int] is taken to be 32 bits wide. *)

From Stdlib Require Import String.
From stdpp Require Import list.
From Stdlib Require Import ZArith Lia.

Set Implicit Arguments.

(** ** SafeQueueVariant.hpp *)

Module Queue.

(** A thread is known by a number. *)
Abbreviation thread := nat (only parsing).

(** [T()] — the value-initialised element that [std::pair<T, bool> ret;]
    holds before anything is assigned to it. *)
Class DefaultConstructible (T : Type) : Type := T_default : T.

#[export] Instance string_default : DefaultConstructible string := EmptyString.
#[export] Instance nat_default : DefaultConstructible nat := 0.

(** The data members, in declaration order ([m] is implicit, see above). *)
Record SafeQueueVariant (T : Type) : Type := mkQueue {
  shutdownObject : T;
  terminateFlag : bool;
  q : list T;
  c : list thread
}.

Arguments mkQueue {T} _ _ _ _.

(** [std::cv_status], the result of [wait_for]. *)
Inductive cv_status : Type := no_timeout | timeout.

Definition UINT_BITS : Z := 32.

(** Conversion of a [size_t] to [unsigned int]. *)
Definition to_unsigned_int (n : Z) : Z := n mod 2 ^ UINT_BITS.

Section Members.

Context {T : Type}.

Local Abbreviation queue := (SafeQueueVariant T).

(** *** The constructor

    [shutdownObject(args...), terminateFlag(false), q(), m(), c()]: the
    sentinel is whatever [T(args...)] builds. *)
Definition construct (sentinel : T) : queue := mkQueue sentinel false [] [].

(** *** Member updates *)

Definition set_terminateFlag (b : bool) (s : queue) : queue :=
  mkQueue (shutdownObject s) b (q s) (c s).

Definition set_q (items : list T) (s : queue) : queue :=
  mkQueue (shutdownObject s) (terminateFlag s) items (c s).

Definition set_c (waiting : list thread) (s : queue) : queue :=
  mkQueue (shutdownObject s) (terminateFlag s) (q s) waiting.

(** *** The condition variable

    [notify_one] releases one blocked thread; which one is unspecified, and
    the longest-blocked one is taken here.  [notify_all] releases all.
    A thread that calls [c.wait] joins the blocked threads ([sleep]) and
    leaves them when it runs again ([awake]), whether it was notified or
    woke spuriously. *)
Definition notify_one (s : queue) : queue := set_c (tl (c s)) s.

Definition notify_all (s : queue) : queue := set_c [] s.

Definition sleep (me : thread) (s : queue) : queue := set_c (c s ++ [me]) s.

Definition awake (me : thread) (s : queue) : queue :=
  set_c (List.filter (fun w => negb (Nat.eqb w me)) (c s)) s.

(** *** Member functions that never block *)

(** [q.push(t); c.notify_one();] *)
Definition enqueue (t : T) (s : queue) : queue :=
  notify_one (set_q (q s ++ [t]) s).

(** [while (!q.empty()) q.pop();] *)
Fixpoint pop_all (items : list T) : list T :=
  match items with
  | [] => []
  | _ :: rest => pop_all rest
  end.

Definition clear (s : queue) : queue := set_q (pop_all (q s)) s.

Definition wakeWaiters (s : queue) : queue := notify_all s.

(** [terminateFlag = true; wakeWaiters(); lock; c.notify_all();] *)
Definition stop (s : queue) : queue :=
  notify_all (wakeWaiters (set_terminateFlag true s)).

(** [~SafeQueueVariant() { stop(); }]: the state in which the body of the
    destructor leaves the object, before its members are destroyed. *)
Definition destructor (s : queue) : queue := stop s.

Definition isStopped (s : queue) : bool := terminateFlag s.

Definition size (s : queue) : Z := to_unsigned_int (Z.of_nat (length (q s))).

Definition isEmpty (s : queue) : bool :=
  match q s with
  | [] => true
  | _ :: _ => false
  end.

(** [nonBlockingDequeue]: the flag is not read. *)
Definition nonBlockingDequeue `{DefaultConstructible T} (s : queue)
  : (T * bool) * queue :=
  match q s with
  | x :: rest => ((x, true), set_q rest s)
  | [] => ((T_default, false), s)
  end.

(** *** What other threads do while the caller is blocked

    The atomic sections of the member functions that another thread can run
    while the caller has released the mutex inside a wait. [EnvRaiseFlag] is
    the first statement of [stop], which is executed without the mutex;
    [EnvBlock] is another thread entering a wait. *)
Inductive env_step : Type :=
| EnvEnqueue (t : T)
| EnvNonBlockingDequeue
| EnvClear
| EnvWakeWaiters
| EnvRaiseFlag
| EnvStop
| EnvBlock (other : thread).

Definition env_apply (e : env_step) (s : queue) : queue :=
  match e with
  | EnvEnqueue t => enqueue t s
  | EnvNonBlockingDequeue =>
      match q s with
      | _ :: rest => set_q rest s
      | [] => s
      end
  | EnvClear => clear s
  | EnvWakeWaiters => wakeWaiters s
  | EnvRaiseFlag => set_terminateFlag true s
  | EnvStop => stop s
  | EnvBlock other => sleep other s
  end.

(** One wake-up: what happened to the object while the caller slept. *)
Definition wakeup : Type := list env_step.

Definition env_run (w : wakeup) (s : queue) : queue :=
  fold_left (fun st e => env_apply e st) w s.

(** [c.wait(lock)] as seen by the caller: block, let the others run, run
    again. *)
Definition cv_wait (me : thread) (w : wakeup) (s : queue) : queue :=
  awake me (env_run w (sleep me s)).

(** *** Member functions that may block *)

(** The result of a call that blocks in [c.wait]: it returns, having used
    a prefix of the wake-ups it was offered ([rest] is what it left), or it
    is still blocked when the wake-ups are exhausted. *)
Inductive outcome (A : Type) : Type :=
| Returned (v : A) (s : queue) (rest : list wakeup)
| Blocked (s : queue).

Arguments Blocked {A} _.

(** The loop of [dequeue]:
    [while (q.empty()) { c.wait(lock); if (terminateFlag) return shutdownObject; }
     T val = q.front(); q.pop(); return val;] *)
Fixpoint dequeue_loop (me : thread) (wakes : list wakeup) (s : queue)
  : outcome T :=
  match q s with
  | x :: rest => Returned x (set_q rest s) wakes
  | [] =>
      match wakes with
      | [] => Blocked (sleep me s)
      | w :: wakes' =>
          let s' := cv_wait me w s in
          if terminateFlag s' then Returned (shutdownObject s') s' wakes'
          else dequeue_loop me wakes' s'
      end
  end.

Definition dequeue (me : thread) (wakes : list wakeup) (s : queue)
  : outcome T :=
  if terminateFlag s then Returned (shutdownObject s) s wakes
  else dequeue_loop me wakes s.

(** [void wait()]: one [c.wait], not in a loop. *)
Definition wait (me : thread) (wakes : list wakeup) (s : queue)
  : outcome unit :=
  if terminateFlag s then Returned tt s wakes
  else
    match q s with
    | [] =>
        match wakes with
        | [] => Blocked (sleep me s)
        | w :: wakes' => Returned tt (cv_wait me w s) wakes'
        end
    | _ :: _ => Returned tt s wakes
    end.

(** *** Member functions that wait with a time-out

    A [wait_for] always ends; its input is what happened meanwhile and the
    status it reports. *)
Record timed_wakeup : Type := mkTimed {
  during : wakeup;
  status : cv_status
}.

(** The result of a timed call: a value and the state left, or undefined
    behaviour. *)
Inductive timed_outcome (A : Type) : Type :=
| Completed (v : A) (s : queue)
| Undefined.

Arguments Undefined {A}.

(** [wait_for_dequeue]: the queue is not examined before [front()]. *)
Definition wait_for_dequeue `{DefaultConstructible T} (me : thread)
    (w : timed_wakeup) (s : queue) : timed_outcome (T * bool) :=
  if terminateFlag s then Completed (T_default, false) s
  else
    let s' := cv_wait me (during w) s in
    match status w with
    | timeout => Completed (T_default, false) s'
    | no_timeout =>
        match q s' with
        | x :: rest => Completed (x, true) (set_q rest s')
        | [] => Undefined
        end
    end.

(** [bool wait(duration)]. *)
Definition wait_timeout (me : thread) (w : timed_wakeup) (s : queue)
  : bool * queue :=
  match q s with
  | _ :: _ => (true, s)
  | [] =>
      if terminateFlag s then (false, s)
      else
        (match status w with no_timeout => true | timeout => false end,
         cv_wait me (during w) s)
  end.

(** *** What a blocked caller sees

    [idle]: neither an item nor a stop, the state in which [dequeue] goes
    (back) to sleep.  [cv_waits] is the state after a series of wake-ups and
    [all_idle] says that each of them found the queue idle. *)
Definition idle (s : queue) : bool := negb (terminateFlag s) && isEmpty s.

Definition cv_waits (me : thread) (wakes : list wakeup) (s : queue) : queue :=
  fold_left (fun st w => cv_wait me w st) wakes s.

Fixpoint all_idle (me : thread) (wakes : list wakeup) (s : queue) : bool :=
  match wakes with
  | [] => true
  | w :: wakes' =>
      idle (cv_wait me w s) && all_idle me wakes' (cv_wait me w s)
  end.

(** *** Calls as data

    Every public member function with its arguments (and, for the ones that
    wait, what happens while they wait), so that statements can range over
    "any operation" and over sequences of them. *)
Inductive value : Type :=
| VVoid
| VItem (t : T)
| VFound (ret : T * bool)
| VBool (b : bool)
| VUInt (n : Z).

Inductive call : Type :=
| CallEnqueue (t : T)
| CallDequeue (me : thread) (wakes : list wakeup)
| CallWaitForDequeue (me : thread) (w : timed_wakeup)
| CallNonBlockingDequeue
| CallClear
| CallWakeWaiters
| CallWait (me : thread) (wakes : list wakeup)
| CallWaitTimeout (me : thread) (w : timed_wakeup)
| CallStop
| CallIsStopped
| CallSize
| CallIsEmpty.

(** How a call ends: it returns, it never returns, or its behaviour is
    undefined. *)
Inductive ending : Type :=
| Finished (v : value) (s : queue)
| Hung (s : queue)
| Crashed.

(** What a call returns, if it returns. *)
Definition returned_value (e : ending) : option value :=
  match e with
  | Finished v _ => Some v
  | Hung _ | Crashed => None
  end.

Definition run_call `{DefaultConstructible T} (k : call) (s : queue)
  : ending :=
  match k with
  | CallEnqueue t => Finished VVoid (enqueue t s)
  | CallDequeue me wakes =>
      match dequeue me wakes s with
      | Returned v s' _ => Finished (VItem v) s'
      | Blocked s' => Hung s'
      end
  | CallWaitForDequeue me w =>
      match wait_for_dequeue me w s with
      | Completed ret s' => Finished (VFound ret) s'
      | Undefined => Crashed
      end
  | CallNonBlockingDequeue =>
      let (ret, s') := nonBlockingDequeue s in Finished (VFound ret) s'
  | CallClear => Finished VVoid (clear s)
  | CallWakeWaiters => Finished VVoid (wakeWaiters s)
  | CallWait me wakes =>
      match wait me wakes s with
      | Returned _ s' _ => Finished VVoid s'
      | Blocked s' => Hung s'
      end
  | CallWaitTimeout me w =>
      let (b, s') := wait_timeout me w s in Finished (VBool b) s'
  | CallStop => Finished VVoid (stop s)
  | CallIsStopped => Finished (VBool (isStopped s)) s
  | CallSize => Finished (VUInt (size s)) s
  | CallIsEmpty => Finished (VBool (isEmpty s)) s
  end.

(** A sequence of calls, each started after the previous one returned. *)
Fixpoint run_calls `{DefaultConstructible T} (ks : list call) (s : queue)
  : option (list value * queue) :=
  match ks with
  | [] => Some ([], s)
  | k :: ks' =>
      match run_call k s with
      | Finished v s' =>
          match run_calls ks' s' with
          | Some (vs, s'') => Some (v :: vs, s'')
          | None => None
          end
      | Hung _ | Crashed => None
      end
  end.

(** [enqueue] called once per item, in order. *)
Definition enqueue_all (items : list T) (s : queue) : queue :=
  fold_left (fun st t => enqueue t st) items s.

(** *** One consumer and its producers

    The consumer thread only calls the blocking [dequeue]; producer threads
    only call [enqueue].  A producer runs either between two calls of the
    consumer ([Produce]) or while the consumer is blocked inside [dequeue]
    (a wake-up made of enqueues).  The run records, in the order in which
    they happened, the items enqueued and the items the consumer got. *)
Inductive fifo_event : Type :=
| Produce (t : T)
| Consume.

Definition producers (items : list T) : wakeup := map EnvEnqueue items.

Record fifo_log : Type := mkLog {
  enqueued : list T;
  delivered : list T
}.

Fixpoint single_consumer (me : thread) (events : list fifo_event)
    (wakes : list (list T)) (s : queue) (log : fifo_log)
  : option (fifo_log * queue) :=
  match events with
  | [] => Some (log, s)
  | Produce t :: events' =>
      single_consumer me events' wakes (enqueue t s)
        (mkLog (enqueued log ++ [t]) (delivered log))
  | Consume :: events' =>
      match dequeue me (map producers wakes) s with
      | Returned v s' rest =>
          let used := length wakes - length rest in
          single_consumer me events' (drop used wakes) s'
            (mkLog (enqueued log ++ concat (take used wakes))
                   (delivered log ++ [v]))
      | Blocked _ => None
      end
  end.

(** *** Kinds of steps and of calls

    [uneventful]: a wake-up during which nobody enqueued and nobody stopped
    the queue.  [stop_free]: a call that is not [stop] and during whose
    waits nobody called [stop]. *)
Definition adds_nothing (e : env_step) : bool :=
  match e with
  | EnvEnqueue _ | EnvRaiseFlag | EnvStop => false
  | EnvNonBlockingDequeue | EnvClear | EnvWakeWaiters | EnvBlock _ => true
  end.

Definition uneventful (w : wakeup) : bool := forallb adds_nothing w.

Definition raises_flag (e : env_step) : bool :=
  match e with
  | EnvRaiseFlag | EnvStop => true
  | EnvEnqueue _ | EnvNonBlockingDequeue | EnvClear | EnvWakeWaiters
  | EnvBlock _ => false
  end.

Definition stop_free_wakeup (w : wakeup) : bool :=
  forallb (fun e => negb (raises_flag e)) w.

Definition stop_free (k : call) : bool :=
  match k with
  | CallStop => false
  | CallDequeue _ wakes | CallWait _ wakes => forallb stop_free_wakeup wakes
  | CallWaitForDequeue _ tw | CallWaitTimeout _ tw =>
      stop_free_wakeup (during tw)
  | CallEnqueue _ | CallNonBlockingDequeue | CallClear | CallWakeWaiters
  | CallIsStopped | CallSize | CallIsEmpty => true
  end.

(** [nonBlockingDequeue] called [n] times in a row; the results in order. *)
Fixpoint nonBlockingDequeue_n `{DefaultConstructible T} (n : nat) (s : queue)
  : list (T * bool) * queue :=
  match n with
  | 0 => ([], s)
  | S n' =>
      let (ret, s') := nonBlockingDequeue s in
      let (rets, s'') := nonBlockingDequeue_n n' s' in
      (ret :: rets, s'')
  end.

End Members.

Arguments Returned {T A} v s rest.
Arguments Blocked {T A} s.
Arguments Completed {T A} v s.
Arguments Undefined {T A}.

End Queue.

(** ** WheeledThreadPool.h

    The header declares the pool: [run], the constant [nThreads] and the
    static members.  [Wheel.h], the queue type of the spokes
    ([blockingconcurrentqueue.h]) and the bodies of [startup] and
    [queueListener] are not part of the sources at hand; they are modelled
    from the specification, each under a comment that says so. *)

Module Pool.

Import Queue.

(** [std::function<void()>]: a callable is known by a number, and calling
    it is recording that number; a default-constructed one is empty. *)
Inductive function : Type :=
| EmptyFunction
| Job (id : nat).

#[export] Instance function_default : DefaultConstructible function :=
  EmptyFunction.

Definition nThreads : nat := 4.

(** Modelled from the spec: [Wheel<T, N>] of Wheel.h, "holds N queues
    (spokes) and yields the next one, in strict cyclic order, on each
    request", "a fixed cyclic sequence starting at index 0", "spoke index
    advances by 1, mod N, per call".  [getSpoke] gives the index of the
    spoke it yields and the wheel with its cursor advanced. *)
Record Wheel (Q : Type) : Type := mkWheel {
  wheelySpokes : list Q;
  currentElement : nat
}.

Definition getSpoke {Q : Type} (w : Wheel Q) : nat * Wheel Q :=
  (currentElement w,
   mkWheel (wheelySpokes w)
     (S (currentElement w) mod length (wheelySpokes w))).

(** Modelled from the spec: the queue of a spoke, "the task is enqueued on
    that spoke's ShutdownAwareQueue"; its sentinel is the empty callable. *)
Definition spoke : Type := SafeQueueVariant function.

(** The static members.  A worker thread of [queueMonitors] is known by the
    index that its [queueListener] was given; [tpLock] holds the thread
    that has locked it. *)
Record WheeledThreadPool : Type := mkPool {
  tpLock : option thread;
  isStarted : bool;
  threadPooledFunctions : Wheel spoke;
  queueMonitors : list nat
}.

(** The members as they are before [startup], for a wheel of [N] spokes. *)
Definition initial (N : nat) : WheeledThreadPool :=
  mkPool None false (mkWheel (replicate N (construct EmptyFunction)) 0) [].

(** [threadPooledFunctions.getSpoke().enqueue(task);] *)
Definition run (task : function) (p : WheeledThreadPool) : WheeledThreadPool :=
  let (i, wheel) := getSpoke (threadPooledFunctions p) in
  mkPool (tpLock p) (isStarted p)
    (mkWheel (alter (enqueue task) i (wheelySpokes wheel))
       (currentElement wheel))
    (queueMonitors p).

(** [run] called once per task, in order, by one thread. *)
Definition run_all (tasks : list function) (p : WheeledThreadPool)
  : WheeledThreadPool :=
  fold_left (fun st t => run t st) tasks p.

Definition spoke_at (i : nat) (p : WheeledThreadPool) : option spoke :=
  wheelySpokes (threadPooledFunctions p) !! i.

(** The tasks queued on spoke [i]. *)
Definition queued (i : nat) (p : WheeledThreadPool) : list function :=
  match spoke_at i p with
  | Some s => q s
  | None => []
  end.

(** The wheel has its [N] spokes, none of them stopped, and its cursor is on
    one of them. *)
Definition wheel_ok (N : nat) (p : WheeledThreadPool) : Prop :=
  length (wheelySpokes (threadPooledFunctions p)) = N
  /\ currentElement (threadPooledFunctions p) < N
  /\ forall i s, spoke_at i p = Some s -> terminateFlag s = false.

(** The tasks that a strictly cyclic distribution over [N] spokes gives to
    spoke [i], when the first task of [tasks] goes to spoke [pos mod N]. *)
Fixpoint share (N i pos : nat) (tasks : list function) : list function :=
  match tasks with
  | [] => []
  | t :: tasks' =>
      if Nat.eqb (pos mod N) i then t :: share N i (S pos) tasks'
      else share N i (S pos) tasks'
  end.

(** Modelled from the spec: the worker loop [queueListener(index)],
    "repeatedly block-dequeue from the bound spoke; if the value is the
    sentinel (i.e., the queue reports stopped), exit the loop and terminate
    the thread; otherwise execute the retrieved task synchronously, then
    continue the loop".  The worker is followed for [rounds] rounds of the
    loop; [executed] is what it has run so far. *)
Inductive worker_state : Type :=
| Exited (executed : list function) (s : spoke)
| Waiting (executed : list function) (s : spoke)
| Running (executed : list function) (s : spoke).

Fixpoint queueListener (rounds : nat) (me : thread)
    (wakes : list (wakeup (T:=function))) (s : spoke)
    (executed : list function) : worker_state :=
  match rounds with
  | 0 => Running executed s
  | S rounds' =>
      match dequeue me wakes s with
      | Blocked s' => Waiting executed s'
      | Returned f s' rest =>
          if isStopped s' then Exited executed s'
          else queueListener rounds' me rest s' (executed ++ [f])
      end
  end.

(** *** A worker while tasks are being submitted

    The worker of a spoke runs while the submitting thread goes on calling
    [run].  Its run is cut into stints.  The tasks of [arriving] are put on
    its spoke first: while it is between two rounds of its loop if it was
    running, or as the wake-up of the [dequeue] in which it is blocked if it
    was waiting.  Then it makes [further_rounds] + 1 rounds of its loop.  A
    stint in which nothing arrives for a waiting worker is a spurious
    wake-up. *)
Record stint : Type := mkStint {
  arriving : list function;
  further_rounds : nat
}.

Fixpoint listener_stints (me : thread) (stints : list stint)
    (w : worker_state) : worker_state :=
  match stints with
  | [] => w
  | st :: stints' =>
      listener_stints me stints'
        match w with
        | Running executed s =>
            queueListener (S (further_rounds st)) me []
              (enqueue_all (arriving st) s) executed
        | Waiting executed s =>
            queueListener (S (further_rounds st)) me
              [producers (arriving st)] s executed
        | Exited executed s => Exited executed s
        end
  end.

(** The stints of the worker of spoke [i] when the submitting thread
    submits, through [run], one batch of tasks per stint; [pos] is the
    number of tasks submitted before. *)
Fixpoint stints_on (N i pos : nat) (schedule : list (list function * nat))
  : list stint :=
  match schedule with
  | [] => []
  | (batch, r) :: schedule' =>
      mkStint (share N i pos batch) r
      :: stints_on N i (pos + length batch) schedule'
  end.

(** The worker has executed, in order and once each, the first of the tasks
    [arrived] on its spoke; the others are still queued, none if it is
    waiting; the spoke is not stopped and the worker has not exited. *)
Definition worker_inv (w : worker_state) (arrived : list function) : Prop :=
  match w with
  | Running executed s => executed ++ q s = arrived /\ terminateFlag s = false
  | Waiting executed s =>
      executed = arrived /\ q s = [] /\ terminateFlag s = false
  | Exited _ _ => False
  end.

(** *** [startup] called by several threads

    Modelled from the spec: [startup()], "a started flag guarded by a
    lock", "only the very first caller that successfully transitions
    NotStarted -> Starting performs thread spawning; all others return once
    Running is observed", "completes once exactly N worker threads have been
    spawned, each bound to a distinct spoke index 0..N-1", written in the
    "double-checked-locking pattern": the flag is read, the lock is taken,
    the flag is read again, the workers are spawned one by one, the flag is
    set, the lock is released.  A caller is at one of these points. *)
Inductive startup_pc : Type :=
| AtEntry
| AtLock
| Holding
| Spawning (i : nat)
| Releasing
| Left.

Definition set_tpLock (l : option thread) (p : WheeledThreadPool)
  : WheeledThreadPool :=
  mkPool l (isStarted p) (threadPooledFunctions p) (queueMonitors p).

Definition set_isStarted (b : bool) (p : WheeledThreadPool)
  : WheeledThreadPool :=
  mkPool (tpLock p) b (threadPooledFunctions p) (queueMonitors p).

Definition spawn (index : nat) (p : WheeledThreadPool) : WheeledThreadPool :=
  mkPool (tpLock p) (isStarted p) (threadPooledFunctions p)
    (queueMonitors p ++ [index]).

(** The pool and the point each caller of [startup] is at. *)
Definition config : Type := WheeledThreadPool * list startup_pc.

(** One step of caller [t], if it can take one: a caller at [AtLock] whose
    lock is held cannot, and neither can one that has left. *)
Definition startup_step (N : nat) (t : thread) (cfg : config) : option config :=
  let (p, pcs) := cfg in
  match pcs !! t with
  | Some AtEntry =>
      Some (p, <[t := if isStarted p then Left else AtLock]> pcs)
  | Some AtLock =>
      match tpLock p with
      | None => Some (set_tpLock (Some t) p, <[t := Holding]> pcs)
      | Some _ => None
      end
  | Some Holding =>
      Some (p, <[t := if isStarted p then Releasing else Spawning 0]> pcs)
  | Some (Spawning i) =>
      if Nat.ltb i N then Some (spawn i p, <[t := Spawning (S i)]> pcs)
      else Some (set_isStarted true p, <[t := Releasing]> pcs)
  | Some Releasing => Some (set_tpLock None p, <[t := Left]> pcs)
  | Some Left | None => None
  end.

(** The callers take steps in the order of [schedule]; a caller that is
    scheduled while it cannot step stays where it is. *)
Fixpoint startup_run (N : nat) (schedule : list thread) (cfg : config)
  : config :=
  match schedule with
  | [] => cfg
  | t :: schedule' =>
      match startup_step N t cfg with
      | Some cfg' => startup_run N schedule' cfg'
      | None => startup_run N schedule' cfg
      end
  end.

(** [callers] threads enter [startup] on a pool that was never started. *)
Definition startup_begin (N callers : nat) : config :=
  (initial N, replicate callers AtEntry).

Definition all_left (cfg : config) : bool :=
  forallb (fun pc => match pc with Left => true | _ => false end) (snd cfg).

(** The steps that a caller at [pc] has at most before it has left. *)
Definition steps_left (N : nat) (pc : startup_pc) : nat :=
  match pc with
  | AtEntry => N + 5
  | AtLock => N + 4
  | Holding => N + 3
  | Spawning i => 2 + (N - i)
  | Releasing => 1
  | Left => 0
  end.

Definition total_steps_left (N : nat) (cfg : config) : nat :=
  list_sum (map (steps_left N) (snd cfg)).

(** A caller between taking the lock and releasing it. *)
Definition critical (pc : startup_pc) : bool :=
  match pc with
  | Holding | Spawning _ | Releasing => true
  | AtEntry | AtLock | Left => false
  end.

(** What holds of the pool and its callers at every moment: only the
    holder of the lock is in the critical section; the worker threads
    spawned so far are those of the spokes 0, 1, ... in this order, all [N]
    of them once the flag is set and none before the holder begins; a
    caller has left only if the flag is set. *)
Definition startup_inv (N : nat) (cfg : config) : Prop :=
  let (p, pcs) := cfg in
  (forall t pc, pcs !! t = Some pc -> critical pc = true -> tpLock p = Some t)
  /\ match tpLock p with
     | None => queueMonitors p = if isStarted p then seq 0 N else []
     | Some t =>
         match pcs !! t with
         | Some Holding =>
             queueMonitors p = if isStarted p then seq 0 N else []
         | Some (Spawning i) =>
             isStarted p = false /\ i <= N /\ queueMonitors p = seq 0 i
         | Some Releasing =>
             isStarted p = true /\ queueMonitors p = seq 0 N
         | Some AtEntry | Some AtLock | Some Left | None => False
         end
     end
  /\ (forall t, pcs !! t = Some Left -> isStarted p = true).

(** The number of tasks queued on the spokes, all together. *)
Definition queued_total (p : WheeledThreadPool) : nat :=
  list_sum (map (fun s : spoke => length (q s))
              (wheelySpokes (threadPooledFunctions p))).

End Pool.

(** ** Properties of SafeQueueVariant *)

Module QueueProperties.

Import Queue.

#[local] Arguments cv_wait : simpl never.

Section Facts.

Context {T : Type} `{DefaultConstructible T}.

Implicit Types (s : SafeQueueVariant T) (w : wakeup (T:=T)) (me : thread).

(** *** The termination flag only rises *)

Lemma env_apply_keeps_flag e s :
  terminateFlag s = true -> terminateFlag (env_apply e s) = true.
Proof.
  destruct e; simpl; trivial.
  destruct (q s); trivial.
Qed.

Lemma env_run_keeps_flag w s :
  terminateFlag s = true -> terminateFlag (env_run w s) = true.
Proof.
  unfold env_run. revert s.
  induction w as [|e w IH]; intros s Hs; simpl; [exact Hs|].
  apply IH, env_apply_keeps_flag, Hs.
Qed.

Lemma cv_wait_keeps_flag me w s :
  terminateFlag s = true -> terminateFlag (cv_wait me w s) = true.
Proof.
  intros Hs. unfold cv_wait. simpl.
  apply env_run_keeps_flag. exact Hs.
Qed.

Lemma env_apply_shutdownObject e s :
  shutdownObject (env_apply e s) = shutdownObject s.
Proof. destruct e; simpl; trivial. destruct (q s); trivial. Qed.

Lemma env_run_shutdownObject w s :
  shutdownObject (env_run w s) = shutdownObject s.
Proof.
  unfold env_run. revert s.
  induction w as [|e w IH]; intros s; simpl; [reflexivity|].
  rewrite IH. apply env_apply_shutdownObject.
Qed.

Lemma cv_wait_shutdownObject me w s :
  shutdownObject (cv_wait me w s) = shutdownObject s.
Proof. unfold cv_wait. simpl. now rewrite env_run_shutdownObject. Qed.

Lemma env_run_app w1 w2 s :
  env_run (w1 ++ w2) s = env_run w2 (env_run w1 s).
Proof. unfold env_run. apply fold_left_app. Qed.

(** A wake-up during which [stop] ran, or at least its first statement, is
    seen by the woken thread with the flag set. *)
Lemma env_run_stop_seen w s :
  In EnvStop w \/ In EnvRaiseFlag w -> terminateFlag (env_run w s) = true.
Proof.
  intros Hin.
  assert (exists w1 e w2, w = w1 ++ e :: w2 /\ (e = EnvStop \/ e = EnvRaiseFlag))
    as (w1 & e & w2 & -> & He).
  { destruct Hin as [Hin|Hin]; apply in_split in Hin as (w1 & w2 & ->); eauto 6. }
  rewrite env_run_app. change (e :: w2) with ([e] ++ w2).
  rewrite env_run_app. apply env_run_keeps_flag.
  destruct He as [-> | ->]; reflexivity.
Qed.

(** On a stopped queue no member function waits and none touches an empty
    queue: every call returns, and leaves the flag set and the sentinel as
    it was. *)
Lemma run_call_stopped (k : call) s :
  terminateFlag s = true ->
  exists v s', run_call k s = Finished v s'
    /\ terminateFlag s' = true /\ shutdownObject s' = shutdownObject s.
Proof.
  intros Hs. destruct k; simpl; eauto.
  - unfold dequeue. rewrite Hs. eauto.
  - unfold wait_for_dequeue. rewrite Hs. eauto.
  - unfold nonBlockingDequeue. destruct (q s); eauto.
  - unfold wait. rewrite Hs. eauto.
  - unfold wait_timeout. destruct (q s); rewrite ?Hs; eauto.
Qed.

Lemma run_calls_stopped (ks : list call) s :
  terminateFlag s = true ->
  exists vs s', run_calls ks s = Some (vs, s')
    /\ terminateFlag s' = true /\ shutdownObject s' = shutdownObject s.
Proof.
  revert s. induction ks as [|k ks IH]; intros s Hs; simpl; eauto.
  destruct (run_call_stopped k s Hs) as (v & s1 & -> & Hs1 & Ho1).
  destruct (IH s1 Hs1) as (vs & s2 & -> & Hs2 & Ho2).
  rewrite Ho1 in Ho2. eauto.
Qed.

(** [stop] on a stopped queue leaves every call with the result it had. *)
Lemma run_call_after_second_stop (k : call) s :
  terminateFlag s = true ->
  returned_value (run_call k (stop s)) = returned_value (run_call k s).
Proof.
  intros Hs.
  destruct k; simpl; trivial.
  - unfold dequeue. simpl. rewrite Hs. reflexivity.
  - unfold wait_for_dequeue. simpl. rewrite Hs. reflexivity.
  - unfold nonBlockingDequeue. simpl. destruct (q s); reflexivity.
  - unfold wait. simpl. rewrite Hs. reflexivity.
  - unfold wait_timeout. simpl. destruct (q s); rewrite ?Hs; reflexivity.
  - unfold isStopped. simpl. now rewrite Hs.
Qed.

(** C6 — Termination-flag permanence and stop idempotence: once the flag of
    a queue is true, every later operation (enqueue, the three dequeues,
    clear, wakeWaiters, both waits, stop, the observers), alone or in any
    sequence, and every step of another thread, returns and leaves it true;
    and [stop] on a stopped queue changes nothing that can be observed:
    the observers and every later call give what they gave before, and the
    second [stop] leaves the object exactly as the first did. *)
Theorem terminateFlag_permanent_stop_idempotent s :
  terminateFlag s = true ->
  (forall k : call,
      exists v s', run_call k s = Finished v s' /\ terminateFlag s' = true)
  /\ (forall ks : list call,
      exists vs s', run_calls ks s = Some (vs, s') /\ terminateFlag s' = true)
  /\ (forall w, terminateFlag (env_run w s) = true)
  /\ (forall me w, terminateFlag (cv_wait me w s) = true)
  /\ (isStopped (stop s) = isStopped s
      /\ size (stop s) = size s
      /\ isEmpty (stop s) = isEmpty s
      /\ q (stop s) = q s
      /\ shutdownObject (stop s) = shutdownObject s)
  /\ (forall k : call,
      returned_value (run_call k (stop s)) = returned_value (run_call k s))
  /\ (forall s0 : SafeQueueVariant T,
      terminateFlag (stop s0) = true /\ stop (stop s0) = stop s0).
Proof.
  intros Hs. repeat split.
  - intros k. destruct (run_call_stopped k s Hs) as (v & s' & E & F & _). eauto.
  - intros ks. destruct (run_calls_stopped ks s Hs) as (v & s' & E & F & _). eauto.
  - intros w. now apply env_run_keeps_flag.
  - intros me w. now apply cv_wait_keeps_flag.
  - unfold isStopped. simpl. now rewrite Hs.
  - intros k. now apply run_call_after_second_stop.
Qed.

(** *** Dequeueing from a stopped queue *)

Lemma dequeue_stopped me (wakes : list (wakeup (T:=T))) s :
  terminateFlag s = true ->
  dequeue me wakes s = Returned (shutdownObject s) s wakes.
Proof. intros Hs. unfold dequeue. now rewrite Hs. Qed.

Lemma wait_for_dequeue_stopped me (tw : timed_wakeup (T:=T)) s :
  terminateFlag s = true ->
  wait_for_dequeue me tw s = Completed (T_default, false) s.
Proof. intros Hs. unfold wait_for_dequeue. now rewrite Hs. Qed.

(** C1 (amended) — Post-stop determinism of the waiting dequeues: after
    [stop], and after any further calls made since, the blocking [dequeue]
    returns the sentinel and the timed [wait_for_dequeue] returns
    (default, false); both return at once and leave the queued items where
    they are.  [nonBlockingDequeue] does not read the flag: on a stopped
    queue it still hands out and removes the head item, and reports
    "no value" only when the sequence is empty. *)
Theorem dequeue_after_stop (s0 : SafeQueueVariant T) (ks : list call) :
  exists vs s,
    run_calls (CallStop :: ks) s0 = Some (vs, s)
    /\ isStopped s = true
    /\ (forall me wakes,
          dequeue me wakes s = Returned (shutdownObject s0) s wakes)
    /\ (forall me (tw : timed_wakeup),
          wait_for_dequeue me tw s = Completed (T_default, false) s)
    /\ nonBlockingDequeue s =
         match q s with
         | x :: rest => ((x, true), set_q rest s)
         | [] => ((T_default, false), s)
         end.
Proof.
  destruct (run_calls_stopped ks (stop s0) eq_refl) as (vs & s & E & F & O).
  exists (VVoid :: vs), s. simpl. rewrite E. repeat split; trivial.
  - intros me wakes. rewrite dequeue_stopped by exact F.
    now rewrite O.
  - intros me tw. now apply wait_for_dequeue_stopped.
Qed.

(** *** Enqueueing a batch *)

Lemma enqueue_all_q (items : list T) s :
  q (enqueue_all items s) = q s ++ items.
Proof.
  unfold enqueue_all. revert s.
  induction items as [|x items IH]; intros s; simpl.
  - now rewrite app_nil_r.
  - rewrite IH. simpl. now rewrite <- app_assoc.
Qed.

Lemma enqueue_all_terminateFlag (items : list T) s :
  terminateFlag (enqueue_all items s) = terminateFlag s.
Proof.
  unfold enqueue_all. revert s.
  induction items as [|x items IH]; intros s; simpl; [reflexivity|].
  now rewrite IH.
Qed.

Lemma enqueue_all_shutdownObject (items : list T) s :
  shutdownObject (enqueue_all items s) = shutdownObject s.
Proof.
  unfold enqueue_all. revert s.
  induction items as [|x items IH]; intros s; simpl; [reflexivity|].
  now rewrite IH.
Qed.

Lemma enqueue_all_c (items : list T) s :
  c s = [] -> c (enqueue_all items s) = [].
Proof.
  unfold enqueue_all. revert s.
  induction items as [|x items IH]; intros s Hc; simpl; [exact Hc|].
  apply IH. simpl. now rewrite Hc.
Qed.

(** Two objects with the same members are the same object. *)
Lemma queue_eq s1 s2 :
  shutdownObject s1 = shutdownObject s2 ->
  terminateFlag s1 = terminateFlag s2 ->
  q s1 = q s2 -> c s1 = c s2 -> s1 = s2.
Proof. destruct s1, s2; simpl; congruence. Qed.

Lemma size_enqueue_all (items : list T) sentinel :
  size (enqueue_all items (construct sentinel))
  = to_unsigned_int (Z.of_nat (length items)).
Proof. unfold size. now rewrite enqueue_all_q. Qed.

(** C7 (amended) — Stop does not drain: after enqueueing k items on a fresh
    queue the sequence holds exactly these k items; [stop] removes none of
    them, and neither does a blocking or a timed dequeue on the stopped
    queue, which return the sentinel and (default, false).  [size()]
    reports k reduced modulo 2^32, the range of its [unsigned int] result,
    before and after [stop]; it is exactly k when k < 2^32. *)
Theorem stop_does_not_drain (sentinel : T) (items : list T) :
  let s := enqueue_all items (construct sentinel) in
  q s = items
  /\ q (stop s) = items
  /\ size s = to_unsigned_int (Z.of_nat (length items))
  /\ size (stop s) = size s
  /\ (forall me wakes, dequeue me wakes (stop s) = Returned sentinel (stop s) wakes)
  /\ (forall me (tw : timed_wakeup),
        wait_for_dequeue me tw (stop s) = Completed (T_default, false) (stop s))
  /\ ((Z.of_nat (length items) < 2 ^ UINT_BITS)%Z ->
        size s = Z.of_nat (length items)
        /\ size (stop s) = Z.of_nat (length items)).
Proof.
  intros s. subst s.
  assert (Hq : q (enqueue_all items (construct sentinel)) = items)
    by now rewrite enqueue_all_q.
  repeat split; trivial.
  - apply size_enqueue_all.
  - intros me wakes. rewrite dequeue_stopped by reflexivity.
    simpl. now rewrite enqueue_all_shutdownObject.
  - rewrite size_enqueue_all. unfold to_unsigned_int.
    apply Z.mod_small. lia.
  - change (size (stop (enqueue_all items (construct sentinel))))
      with (size (enqueue_all items (construct sentinel))).
    rewrite size_enqueue_all. unfold to_unsigned_int.
    apply Z.mod_small. lia.
Qed.

(** [size()] after as many enqueues as [unsigned int] has values. *)
Lemma size_wraps (sentinel x : T) (n : nat) :
  Z.of_nat n = 4294967296%Z ->
  Z.of_nat (length (repeat x n)) = 4294967296%Z
  /\ q (enqueue_all (repeat x n) (construct sentinel)) = repeat x n
  /\ size (enqueue_all (repeat x n) (construct sentinel)) = 0%Z
  /\ size (enqueue_all (repeat x n) (construct sentinel))
     <> Z.of_nat (length (repeat x n)).
Proof.
  intros Hn.
  assert (Hlen : Z.of_nat (length (repeat x n)) = 4294967296%Z)
    by now rewrite repeat_length.
  assert (Hsize : size (enqueue_all (repeat x n) (construct sentinel)) = 0%Z).
  { rewrite size_enqueue_all, Hlen. reflexivity. }
  split; [exact Hlen|]. split; [now rewrite enqueue_all_q|].
  split; [exact Hsize|]. rewrite Hsize, Hlen. discriminate.
Qed.

(** *** The destructor *)

(** C10 — Destruction stops the queue: the destructor is a call of [stop];
    whatever the state of the object, stopped or not, it leaves the flag
    set and no thread blocked in the condition variable, and removes no
    item.  A thread blocked in [dequeue] on an empty, unstopped queue that
    is woken by it returns the sentinel. *)
Theorem destructor_stops_the_queue s :
  destructor s = stop s
  /\ terminateFlag (destructor s) = true
  /\ c (destructor s) = []
  /\ q (destructor s) = q s
  /\ (forall me rest,
        terminateFlag s = false -> q s = [] ->
        exists s', dequeue me ([EnvStop] :: rest) s
                   = Returned (shutdownObject s) s' rest
                   /\ terminateFlag s' = true /\ c s' = []).
Proof.
  repeat split.
  intros me rest Hf Hq. unfold dequeue. rewrite Hf.
  destruct rest; simpl; rewrite Hq; simpl; eauto.
Qed.

(** *** The blocking dequeue *)

Lemma idle_inv s : idle s = true -> terminateFlag s = false /\ q s = [].
Proof.
  unfold idle, isEmpty. destruct (terminateFlag s), (q s); simpl; intuition congruence.
Qed.

(** The three ways through one round of the loop of [dequeue]. *)
Lemma dequeue_loop_item me (wakes : list (wakeup (T:=T))) s x items :
  q s = x :: items ->
  dequeue_loop me wakes s = Returned x (set_q items s) wakes.
Proof. intros Hq. destruct wakes; simpl; now rewrite Hq. Qed.

Lemma dequeue_loop_blocked me s :
  q s = [] -> dequeue_loop me [] s = Blocked (sleep me s).
Proof. intros Hq. simpl. now rewrite Hq. Qed.

Lemma dequeue_loop_woken me w (wakes : list (wakeup (T:=T))) s :
  q s = [] ->
  dequeue_loop me (w :: wakes) s
  = if terminateFlag (cv_wait me w s)
    then Returned (shutdownObject (cv_wait me w s)) (cv_wait me w s) wakes
    else dequeue_loop me wakes (cv_wait me w s).
Proof. intros Hq. simpl. now rewrite Hq. Qed.

(** Wake-ups that find the queue idle are slept through. *)
Lemma dequeue_loop_idle_prefix me (pre rest : list (wakeup (T:=T))) s :
  q s = [] -> all_idle me pre s = true ->
  dequeue_loop me (pre ++ rest) s = dequeue_loop me rest (cv_waits me pre s)
  /\ q (cv_waits me pre s) = [].
Proof.
  revert s. induction pre as [|w pre IH]; intros s Hq Hidle.
  - split; trivial.
  - cbn [all_idle] in Hidle. apply andb_prop in Hidle as [Hw Hpre].
    apply idle_inv in Hw as [Hf Hq'].
    cbn [app]. rewrite dequeue_loop_woken, Hf by exact Hq.
    now apply IH.
Qed.

Lemma cv_waits_shutdownObject me (wakes : list (wakeup (T:=T))) s :
  shutdownObject (cv_waits me wakes s) = shutdownObject s.
Proof.
  unfold cv_waits. revert s.
  induction wakes as [|w wakes IH]; intros s; cbn [fold_left].
  - reflexivity.
  - rewrite IH. apply cv_wait_shutdownObject.
Qed.

(** C4 — Blocking dequeue contract: on a stopped queue [dequeue] returns
    the sentinel at once (no wake-up is used, nothing is removed); on an
    unstopped queue that holds an item it returns the head at once and
    removes it; on an unstopped empty queue it sleeps through every wake-up
    that finds neither an item nor a stop (it is still blocked if there is
    no other), and at the first wake-up that finds the flag set it returns
    the sentinel, the flag being read before the queue after every wake-up,
    and otherwise at the first that finds an item it returns the head and
    removes it.  A wake-up during which [stop] ran finds the flag set. *)
Theorem dequeue_blocking_contract me s :
  (terminateFlag s = true ->
     forall wakes, dequeue me wakes s = Returned (shutdownObject s) s wakes)
  /\ (forall x items, terminateFlag s = false -> q s = x :: items ->
     forall wakes, dequeue me wakes s = Returned x (set_q items s) wakes)
  /\ (forall pre, idle s = true -> all_idle me pre s = true ->
     dequeue me pre s = Blocked (sleep me (cv_waits me pre s))
     /\ forall w post,
        let s' := cv_wait me w (cv_waits me pre s) in
        (terminateFlag s' = true ->
           dequeue me (pre ++ w :: post) s = Returned (shutdownObject s) s' post)
        /\ (forall x items, terminateFlag s' = false -> q s' = x :: items ->
           dequeue me (pre ++ w :: post) s = Returned x (set_q items s') post)
        /\ (In EnvStop w -> terminateFlag s' = true)).
Proof.
  split; [|split].
  - intros Hs wakes. now apply dequeue_stopped.
  - intros x items Hf Hq wakes. unfold dequeue. rewrite Hf.
    now apply dequeue_loop_item.
  - intros pre Hidle Hpre.
    apply idle_inv in Hidle as [Hf Hq]. unfold dequeue. rewrite Hf.
    split.
    + destruct (dequeue_loop_idle_prefix me pre [] s Hq Hpre) as [E Hq'].
      rewrite app_nil_r in E. rewrite E. now apply dequeue_loop_blocked.
    + intros w post.
      destruct (dequeue_loop_idle_prefix me pre (w :: post) s Hq Hpre)
        as [E Hq'].
      rewrite E, dequeue_loop_woken by exact Hq'.
      set (s' := cv_wait me w (cv_waits me pre s)).
      assert (Hsent : shutdownObject s' = shutdownObject s).
      { subst s'. now rewrite cv_wait_shutdownObject, cv_waits_shutdownObject. }
      split; [|split].
      * intros ->. now rewrite Hsent.
      * intros x items -> Hx. now apply dequeue_loop_item.
      * intros Hin. subst s'. unfold cv_wait. simpl.
        apply env_run_stop_seen. now left.
Qed.

(** *** One consumer: first in, first out *)

Lemma env_run_producers (items : list T) s :
  q (env_run (producers items) s) = q s ++ items
  /\ terminateFlag (env_run (producers items) s) = terminateFlag s.
Proof.
  unfold env_run, producers. revert s.
  induction items as [|x items IH]; intros s; simpl.
  - now rewrite app_nil_r.
  - destruct (IH (enqueue x s)) as [-> ->]. simpl.
    now rewrite <- app_assoc.
Qed.

Lemma cv_wait_producers me (items : list T) s :
  q (cv_wait me (producers items) s) = q s ++ items
  /\ terminateFlag (cv_wait me (producers items) s) = terminateFlag s.
Proof.
  unfold cv_wait. simpl.
  destruct (env_run_producers items (sleep me s)) as [-> ->]. now simpl.
Qed.

(** What one [dequeue] of the consumer does to the sequence: the items that
    were queued, followed by those enqueued during the wake-ups it used, are
    the item it returns followed by the items it leaves. *)
Lemma dequeue_loop_producers me (wakes : list (list T)) s :
  terminateFlag s = false ->
  match dequeue_loop me (map producers wakes) s with
  | Returned v s' rest =>
      let used := length wakes - length rest in
      rest = map producers (drop used wakes)
      /\ q s ++ concat (take used wakes) = v :: q s'
      /\ terminateFlag s' = false
  | Blocked _ => True
  end.
Proof.
  revert s. induction wakes as [|w wakes IH]; intros s Hf;
    destruct (q s) as [|x items] eqn:Hq; cbn [map].
  - now rewrite dequeue_loop_blocked.
  - rewrite (dequeue_loop_item _ _ _ Hq). cbn.
    now rewrite app_nil_r.
  - rewrite dequeue_loop_woken by exact Hq.
    destruct (cv_wait_producers me w s) as [Hq1 Hf1].
    rewrite Hf1, Hf.
    specialize (IH (cv_wait me (producers w) s)).
    rewrite Hf1 in IH. specialize (IH Hf).
    destruct (dequeue_loop me (map producers wakes)
                (cv_wait me (producers w) s)) as [v s' rest|]; trivial.
    cbv zeta in IH. destruct IH as (Hrest & Hseq & Hf').
    assert (Hlen : length rest <= length wakes).
    { rewrite Hrest, length_map, length_skipn. lia. }
    cbv zeta. cbn [length].
    replace (S (length wakes) - length rest)
      with (S (length wakes - length rest)) by lia.
    cbn [take drop concat]. repeat split; trivial.
    rewrite <- Hseq, Hq1, Hq. now rewrite app_assoc.
  - rewrite (dequeue_loop_item _ _ _ Hq). cbv zeta.
    cbn [length]. rewrite length_map, Nat.sub_diag.
    cbn. rewrite app_nil_r. repeat split; trivial.
Qed.

Lemma single_consumer_invariant me (events : list fifo_event) :
  forall (wakes : list (list T)) s log log' s',
  terminateFlag s = false ->
  enqueued log = delivered log ++ q s ->
  single_consumer me events wakes s log = Some (log', s') ->
  enqueued log' = delivered log' ++ q s' /\ terminateFlag s' = false.
Proof.
  induction events as [|[t|] events IH]; intros wakes s log log' s' Hf Hinv Hrun;
    simpl in Hrun.
  - injection Hrun as <- <-. now split.
  - eapply IH in Hrun; trivial.
    simpl. rewrite Hinv. now rewrite <- app_assoc.
  - unfold dequeue in Hrun. rewrite Hf in Hrun.
    pose proof (dequeue_loop_producers me wakes s Hf) as Hdq.
    destruct (dequeue_loop me (map producers wakes) s) as [v s1 rest|];
      [|discriminate].
    simpl in Hdq. destruct Hdq as (_ & Hseq & Hf1).
    eapply IH in Hrun; trivial.
    simpl. rewrite Hinv, <- !app_assoc. f_equal. exact Hseq.
Qed.

Lemma single_consumer_produce me (items : list T) (events : list fifo_event) :
  forall wakes s log,
  single_consumer me (map Produce items ++ events) wakes s log
  = single_consumer me events wakes (enqueue_all items s)
      (mkLog (enqueued log ++ items) (delivered log)).
Proof.
  induction items as [|x items IH]; intros wakes s log; simpl.
  - rewrite app_nil_r. now destruct log.
  - rewrite IH. simpl. now rewrite <- app_assoc.
Qed.

Lemma single_consumer_drain me (items : list T) :
  forall (wakes : list (list T)) s log,
  terminateFlag s = false -> q s = items ->
  single_consumer me (repeat Consume (length items)) wakes s log
  = Some (mkLog (enqueued log) (delivered log ++ items), set_q [] s).
Proof.
  induction items as [|x items IH]; intros wakes s log Hf Hq; simpl.
  - rewrite app_nil_r. destruct log, s. simpl in *. now subst.
  - unfold dequeue. rewrite Hf.
    rewrite (dequeue_loop_item _ _ _ Hq), length_map, Nat.sub_diag. simpl.
    rewrite IH by trivial. simpl.
    now rewrite !app_nil_r, <- app_assoc.
Qed.

(** C5 — FIFO order: with one consumer that calls the blocking [dequeue]
    and producers that enqueue between its calls and while it is blocked,
    on a fresh queue that is never stopped, the items enqueued so far are
    at any time the items delivered so far, in the same order, followed by
    the items still queued; when as many dequeues as enqueues have been
    made the delivered sequence is the enqueued sequence.  In particular k
    enqueues followed by k dequeues deliver the k items in order and leave
    the queue as it was constructed. *)
Theorem fifo_single_consumer (sentinel : T) me :
  (forall events wakes log s',
      single_consumer me events wakes (construct sentinel) (mkLog [] [])
      = Some (log, s') ->
      enqueued log = delivered log ++ q s'
      /\ (length (delivered log) = length (enqueued log) ->
          delivered log = enqueued log))
  /\ (forall items wakes,
      single_consumer me (map Produce items ++ repeat Consume (length items))
        wakes (construct sentinel) (mkLog [] [])
      = Some (mkLog items items, construct sentinel)).
Proof.
  split.
  - intros events wakes log s' Hrun.
    apply single_consumer_invariant in Hrun as [Hinv _]; trivial.
    split; trivial.
    intros Hlen. rewrite Hinv in Hlen. rewrite length_app in Hlen.
    destruct (q s'); [|simpl in Hlen; lia].
    now rewrite app_nil_r in Hinv.
  - intros items wakes. rewrite single_consumer_produce. simpl.
    rewrite (single_consumer_drain me (items:=items)).
    + simpl. do 2 f_equal. apply queue_eq; simpl; trivial.
      * apply enqueue_all_shutdownObject.
      * apply enqueue_all_terminateFlag.
      * now apply enqueue_all_c.
    + now rewrite enqueue_all_terminateFlag.
    + now rewrite enqueue_all_q.
Qed.

(** *** The timed dequeue *)

(** After the wait the status alone decides: with [no_timeout] the head is
    taken without looking whether there is one. *)
Lemma wait_for_dequeue_no_timeout_empty me (tw : timed_wakeup (T:=T)) s :
  terminateFlag s = false -> status tw = no_timeout ->
  q (cv_wait me (during tw) s) = [] ->
  wait_for_dequeue me tw s = Undefined.
Proof.
  intros Hf Hst Hq. unfold wait_for_dequeue. now rewrite Hf, Hst, Hq.
Qed.

(** With [timeout] nothing is taken, whatever the queue holds. *)
Lemma wait_for_dequeue_timeout me (tw : timed_wakeup (T:=T)) s :
  terminateFlag s = false -> status tw = timeout ->
  wait_for_dequeue me tw s
  = Completed (T_default, false) (cv_wait me (during tw) s).
Proof.
  intros Hf Hst. unfold wait_for_dequeue. now rewrite Hf, Hst.
Qed.

End Facts.

(** *** Concrete runs, on queues of strings *)

Section Runs.

Open Scope string_scope.

(** C1 (the claim as stated fails) — "X" is enqueued and the queue is
    stopped; [nonBlockingDequeue] then returns ("X", true), not "no value",
    and removes "X". *)
Lemma nonBlockingDequeue_after_stop_delivers :
  let s := stop (enqueue "X" (construct "STOP")) in
  isStopped s = true
  /\ nonBlockingDequeue s = (("X", true), set_q [] s)
  /\ fst (nonBlockingDequeue s) <> (T_default, false).
Proof. repeat split. discriminate. Qed.

(** C2 (evaluation at the failing input) — an empty, unstopped queue; the
    [wait_for] of [wait_for_dequeue] ends with [no_timeout] although nothing
    was enqueued: because the wake-up was spurious, because [wakeWaiters]
    was called, or because [stop] was called.  In each case [q.front()] is
    evaluated on the empty queue. *)
Theorem wait_for_dequeue_wakeup_on_empty_queue :
  wait_for_dequeue 1 (mkTimed [] no_timeout) (construct "STOP") = Undefined
  /\ wait_for_dequeue 1 (mkTimed [EnvWakeWaiters] no_timeout) (construct "STOP")
     = Undefined
  /\ wait_for_dequeue 1 (mkTimed [EnvStop] no_timeout) (construct "STOP")
     = Undefined.
Proof. repeat split. Qed.

(** C3 (evaluation at the failing input) — an unstopped queue that holds
    "X" when [wait_for_dequeue] is called; nobody notifies during the wait,
    which ends with [timeout]: the call returns (default, false) and "X" is
    still queued. *)
Theorem wait_for_dequeue_ignores_queued_item :
  let s := enqueue "X" (construct "STOP") in
  isStopped s = false
  /\ q s = ["X"]
  /\ wait_for_dequeue 1 (mkTimed [] timeout) s = Completed (T_default, false) s.
Proof. repeat split. Qed.

(** C4 (instances) — the four ways through [dequeue]. *)
Lemma dequeue_blocking_contract_witness :
  dequeue 1 [] (stop (enqueue "X" (construct "STOP")))
  = Returned "STOP" (stop (enqueue "X" (construct "STOP"))) []
  /\ dequeue 1 [] (enqueue "B" (enqueue "A" (construct "STOP")))
     = Returned "A" (enqueue "B" (construct "STOP")) []
  /\ dequeue 1 [[]; [EnvWakeWaiters]] (construct "STOP")
     = Blocked (sleep 1 (construct "STOP"))
  /\ dequeue 1 [[]; [EnvWakeWaiters]; [EnvEnqueue "A"; EnvStop]; []]
       (construct "STOP")
     = Returned "STOP" (stop (enqueue "A" (construct "STOP"))) [[]]
  /\ dequeue 1 [[]; [EnvWakeWaiters]; [EnvEnqueue "A"; EnvEnqueue "B"]; []]
       (construct "STOP")
     = Returned "A" (enqueue "B" (construct "STOP")) [[]].
Proof.
  split; [|split; [|split; [|split]]].
  - exact (proj1 (dequeue_blocking_contract 1
             (stop (enqueue "X" (construct "STOP")))) eq_refl []).
  - exact (proj1 (proj2 (dequeue_blocking_contract 1
             (enqueue "B" (enqueue "A" (construct "STOP")))))
             "A" ["B"] eq_refl eq_refl []).
  - exact (proj1 (proj2 (proj2 (dequeue_blocking_contract 1 (construct "STOP")))
             [[]; [EnvWakeWaiters]] eq_refl eq_refl)).
  - exact (proj1 (proj2 (proj2 (proj2 (dequeue_blocking_contract 1
             (construct "STOP"))) [[]; [EnvWakeWaiters]] eq_refl eq_refl)
             [EnvEnqueue "A"; EnvStop] [[]]) eq_refl).
  - exact (proj1 (proj2 (proj2 (proj2 (proj2 (dequeue_blocking_contract 1
             (construct "STOP"))) [[]; [EnvWakeWaiters]] eq_refl eq_refl)
             [EnvEnqueue "A"; EnvEnqueue "B"] [[]])) "A" ["B"] eq_refl eq_refl).
Defined.

(** C5 (instances) — Scenario A: "A", "B", "C" are enqueued on a fresh
    queue and three blocking dequeues follow; and a run in which the
    consumer is blocked, wakes spuriously, and is woken by the producer of
    "A" before "B" and "C" are produced. *)
Lemma fifo_single_consumer_witness :
  single_consumer 1
    [Produce "A"; Produce "B"; Produce "C"; Consume; Consume; Consume]
    [] (construct "STOP") (mkLog [] [])
  = Some (mkLog ["A"; "B"; "C"] ["A"; "B"; "C"], construct "STOP")
  /\ (let run := single_consumer 1
                   [Consume; Produce "B"; Produce "C"; Consume; Consume]
                   [[]; ["A"]] (construct "STOP") (mkLog [] []) in
      run = Some (mkLog ["A"; "B"; "C"] ["A"; "B"; "C"], construct "STOP")
      /\ enqueued (mkLog ["A"; "B"; "C"] ["A"; "B"; "C"])
         = (delivered (mkLog ["A"; "B"; "C"] ["A"; "B"; "C"])
            ++ q (construct "STOP"))%list).
Proof.
  split.
  - exact (proj2 (fifo_single_consumer "STOP" 1) ["A"; "B"; "C"] []).
  - split; [reflexivity|].
    exact (proj1 (proj1 (fifo_single_consumer "STOP" 1)
             [Consume; Produce "B"; Produce "C"; Consume; Consume]
             [[]; ["A"]] _ _ eq_refl)).
Defined.

(** C6 (instance) — a stopped queue that still holds "X". *)
Lemma terminateFlag_permanent_stop_idempotent_witness :
  let s := stop (enqueue "X" (construct "STOP")) in
  terminateFlag s = true
  /\ (forall ks : list call,
        exists vs s', run_calls ks s = Some (vs, s') /\ terminateFlag s' = true)
  /\ stop s = s.
Proof.
  intros s. split; [reflexivity|]. split.
  - exact (proj1 (proj2 (terminateFlag_permanent_stop_idempotent s eq_refl))).
  - reflexivity.
Defined.

(** C7 (the claim as stated fails) — after 2^32 enqueues on a fresh queue
    the sequence holds 2^32 items and [size()] returns 0. *)
Lemma size_after_4294967296_enqueues :
  Z.of_nat (length (repeat "X" (Z.to_nat 4294967296))) = 4294967296%Z
  /\ q (enqueue_all (repeat "X" (Z.to_nat 4294967296)) (construct "STOP"))
     = repeat "X" (Z.to_nat 4294967296)
  /\ size (enqueue_all (repeat "X" (Z.to_nat 4294967296)) (construct "STOP"))
     = 0%Z
  /\ size (enqueue_all (repeat "X" (Z.to_nat 4294967296)) (construct "STOP"))
     <> Z.of_nat (length (repeat "X" (Z.to_nat 4294967296))).
Proof.
  exact (size_wraps "STOP" "X" (Z.to_nat 4294967296)
           (Z2Nat.id 4294967296 (Pos2Z.is_nonneg 4294967296))).
Qed.

(** C7 (instance) — three items. *)
Lemma stop_does_not_drain_witness :
  let s := enqueue_all ["A"; "B"; "C"] (construct "STOP") in
  (Z.of_nat (length ["A"; "B"; "C"]) < 2 ^ UINT_BITS)%Z
  /\ size s = 3%Z /\ size (stop s) = 3%Z
  /\ q (stop s) = ["A"; "B"; "C"].
Proof.
  intros s. split; [reflexivity|].
  pose proof (stop_does_not_drain "STOP" ["A"; "B"; "C"]) as P.
  cbv zeta in P.
  destruct P as (_ & Hq & _ & _ & _ & _ & Hsize).
  destruct (Hsize eq_refl) as [H1 H2].
  split; [exact H1 | split; [exact H2 | exact Hq]].
Defined.

(** C10 (instance) — a thread blocked in [dequeue] on a fresh queue when
    the queue is destroyed. *)
Lemma destructor_stops_the_queue_witness :
  exists s',
    dequeue 1 [[EnvStop]] (construct "STOP") = Returned "STOP" s' []
    /\ terminateFlag s' = true /\ c s' = [].
Proof.
  exact (proj2 (proj2 (proj2 (proj2
           (destructor_stops_the_queue (construct "STOP")))))
           1 [] eq_refl eq_refl).
Defined.

End Runs.

End QueueProperties.

(** ** Properties of WheeledThreadPool *)

Module PoolProperties.

Import Queue Pool.

(** *** The share of a spoke *)

Lemma share_congr N i pos pos' tasks :
  pos mod N = pos' mod N -> share N i pos tasks = share N i pos' tasks.
Proof.
  revert pos pos'. induction tasks as [|t tasks IH]; intros pos pos' E; simpl.
  - reflexivity.
  - assert (E' : S pos mod N = S pos' mod N).
    { change (S pos) with (1 + pos). change (S pos') with (1 + pos').
      rewrite (Nat.Div0.add_mod 1 pos), (Nat.Div0.add_mod 1 pos'), E.
      reflexivity. }
    rewrite E, (IH _ _ E'). reflexivity.
Qed.

Lemma share_app N i pos tasks1 tasks2 :
  share N i pos (tasks1 ++ tasks2)
  = share N i pos tasks1 ++ share N i (pos + length tasks1) tasks2.
Proof.
  revert pos. induction tasks1 as [|t tasks1 IH]; intros pos; simpl.
  - now rewrite Nat.add_0_r.
  - rewrite IH, Nat.add_succ_r. simpl.
    now destruct (pos mod N =? i).
Qed.

(** How many of [M] tasks a spoke gets. *)
Lemma share_length N i tasks :
  0 < N -> i < N ->
  length (share N i 0 tasks)
  = length tasks / N + (if i <? length tasks mod N then 1 else 0).
Proof.
  intros HN Hi. induction tasks as [|t tasks IH] using rev_ind.
  - simpl. rewrite Nat.Div0.div_0_l, Nat.Div0.mod_0_l. reflexivity.
  - rewrite share_app, !length_app, IH. simpl.
    set (M := length tasks).
    pose proof (Nat.div_mod_eq M N) as HM.
    pose proof (Nat.mod_upper_bound M N ltac:(lia)) as Hb.
    set (a := M / N) in *. set (b := M mod N) in *.
    destruct (Nat.eq_dec (S b) N) as [Hwrap|Hnowrap].
    + assert (Hd : (M + 1) / N = S a).
      { symmetry. apply (Nat.div_unique (M + 1) N (S a) 0); lia. }
      assert (Hm : (M + 1) mod N = 0).
      { symmetry. apply (Nat.mod_unique (M + 1) N (S a) 0); lia. }
      rewrite Hd, Hm.
      destruct (Nat.eqb_spec b i), (Nat.ltb_spec i b), (Nat.ltb_spec i 0);
        simpl; lia.
    + assert (Hd : (M + 1) / N = a).
      { symmetry. apply (Nat.div_unique (M + 1) N a (S b)); lia. }
      assert (Hm : (M + 1) mod N = S b).
      { symmetry. apply (Nat.mod_unique (M + 1) N a (S b)); lia. }
      rewrite Hd, Hm.
      destruct (Nat.eqb_spec b i), (Nat.ltb_spec i b), (Nat.ltb_spec i (S b));
        simpl; lia.
Qed.

(** Exactly one spoke takes a given position. *)
Lemma one_spoke_takes (t : function) k N :
  concat (map (fun i => if k =? i then [t] else []) (seq 0 N))
  = if k <? N then [t] else [].
Proof.
  induction N as [|N IH].
  - reflexivity.
  - rewrite seq_S, map_app, concat_app, IH. simpl.
    destruct (Nat.eqb_spec k N), (Nat.ltb_spec k N), (Nat.ltb_spec k (S N));
      simpl; trivial; lia.
Qed.

Lemma concat_map_app {A B} (f g : A -> list B) (l : list A) :
  concat (map (fun i => f i ++ g i) l) ≡ₚ concat (map f l) ++ concat (map g l).
Proof.
  induction l as [|x l IH]; simpl.
  - reflexivity.
  - rewrite IH. rewrite <- !app_assoc. apply Permutation_app_head.
    rewrite !app_assoc. apply Permutation_app_tail.
    apply Permutation_app_comm.
Qed.

(** The shares of the spokes are the tasks, each one once. *)
Lemma shares_partition N pos tasks :
  0 < N ->
  concat (map (fun i => share N i pos tasks) (seq 0 N)) ≡ₚ tasks.
Proof.
  intros HN. revert pos. induction tasks as [|t tasks IH]; intros pos; simpl.
  - induction (seq 0 N); simpl; trivial.
  - assert (E : forall i,
        (if pos mod N =? i then t :: share N i (S pos) tasks
         else share N i (S pos) tasks)
        = (if pos mod N =? i then [t] else []) ++ share N i (S pos) tasks).
    { intros i. now destruct (pos mod N =? i). }
    erewrite map_ext by (intros i; apply E).
    rewrite concat_map_app, one_spoke_takes, (IH (S pos)).
    pose proof (Nat.mod_upper_bound pos N ltac:(lia)) as Hb.
    destruct (Nat.ltb_spec (pos mod N) N); [reflexivity | lia].
Qed.

(** *** Submitting tasks *)

Lemma initial_ok N : 0 < N -> wheel_ok N (initial N).
Proof.
  intros HN. unfold wheel_ok, spoke_at. simpl.
  rewrite length_replicate. repeat split; trivial.
  intros i s Hs. apply lookup_replicate_1 in Hs as [-> _]. reflexivity.
Qed.

Lemma initial_queued N i : queued i (initial N) = [].
Proof.
  unfold queued, spoke_at. simpl.
  destruct (_ !! i) as [s|] eqn:Hs; trivial.
  apply lookup_replicate_1 in Hs as [-> _]. reflexivity.
Qed.

(** One [run]: the task joins the end of the spoke under the cursor, the
    other spokes are as they were, and the cursor moves on by one. *)
Lemma run_queued N task p i :
  wheel_ok N p ->
  queued i (run task p)
  = queued i p
    ++ (if currentElement (threadPooledFunctions p) =? i then [task] else [])
  /\ currentElement (threadPooledFunctions (run task p))
     = S (currentElement (threadPooledFunctions p)) mod N
  /\ wheel_ok N (run task p).
Proof.
  intros (Hlen & Hcur & Hflags).
  unfold run, queued, spoke_at, wheel_ok in *. simpl.
  rewrite length_alter, Hlen.
  set (k := currentElement (threadPooledFunctions p)) in *.
  split; [|split; [reflexivity|split; [reflexivity|split]]].
  - destruct (Nat.eqb_spec k i) as [<-|Hne].
    + rewrite list_lookup_alter_eq.
      destruct (lookup_lt_is_Some_2 (wheelySpokes (threadPooledFunctions p)) k)
        as [s0 Hs0]; [lia|].
      rewrite Hs0. reflexivity.
    + rewrite list_lookup_alter_ne by exact Hne. now rewrite app_nil_r.
  - apply Nat.mod_upper_bound. lia.
  - intros j s. unfold spoke_at. simpl.
    destruct (Nat.eq_dec k j) as [<-|Hne].
    + rewrite list_lookup_alter_eq.
      destruct (wheelySpokes (threadPooledFunctions p) !! k) as [s0|] eqn:Hs0;
        simpl; [|discriminate].
      intros [= <-]. simpl. exact (Hflags k s0 Hs0).
    + rewrite list_lookup_alter_ne by exact Hne. apply Hflags.
Qed.

Lemma run_all_queued N tasks :
  forall p i,
  wheel_ok N p ->
  queued i (run_all tasks p)
  = queued i p ++ share N i (currentElement (threadPooledFunctions p)) tasks
  /\ wheel_ok N (run_all tasks p).
Proof.
  induction tasks as [|t tasks IH]; intros p i Hok; simpl.
  - now rewrite app_nil_r.
  - destruct (run_queued t i Hok) as (Hq & Hcur & Hok').
    destruct (IH (run t p) i Hok') as [-> Hok''].
    split; [|exact Hok''].
    rewrite Hq, Hcur, <- app_assoc. f_equal.
    destruct Hok as (_ & Hk & _).
    rewrite (Nat.mod_small _ _ Hk).
    rewrite (@share_congr N i _ _ tasks
               (Nat.Div0.mod_mod (S (currentElement (threadPooledFunctions p))) N)).
    now destruct (_ =? i).
Qed.

(** *** The worker of a spoke *)

(** A worker that finds [items] queued on its spoke, which nobody stops or
    feeds meanwhile, executes them in order and then waits. *)
Lemma queueListener_drains me (items : list function) :
  forall rounds (s : spoke) executed,
  q s = items -> terminateFlag s = false -> length items < rounds ->
  queueListener rounds me [] s executed
  = Waiting (executed ++ items) (sleep me (set_q [] s)).
Proof.
  induction items as [|f items IH]; intros rounds s executed Hq Hf Hr;
    (destruct rounds as [|rounds]; [simpl in Hr; lia|]); simpl;
    unfold dequeue; rewrite Hf; simpl; rewrite Hq.
  - rewrite app_nil_r. do 2 f_equal. destruct s; simpl in *. now subst.
  - unfold isStopped. simpl. rewrite Hf.
    rewrite (IH rounds (set_q items s) (executed ++ [f])); simpl; trivial.
    + now rewrite <- app_assoc.
    + simpl in Hr. lia.
Qed.

(** A worker that nobody feeds meanwhile: whatever the number of rounds, it
    has executed the first of the queued tasks and left the others queued;
    with more rounds than tasks it has executed them all and waits. *)
Lemma queueListener_alone me :
  forall rounds (s : spoke) executed,
  terminateFlag s = false ->
  worker_inv (queueListener rounds me [] s executed) (executed ++ q s)
  /\ (length (q s) < rounds ->
      exists s', queueListener rounds me [] s executed
                 = Waiting (executed ++ q s) s').
Proof.
  induction rounds as [|rounds IH]; intros s executed Hf.
  - split; [now split | intros Hr; lia].
  - cbn [queueListener]. unfold dequeue. rewrite Hf.
    destruct (q s) as [|f items] eqn:Hq.
    + rewrite QueueProperties.dequeue_loop_blocked by exact Hq.
      rewrite app_nil_r. split; [|eauto].
      cbn [worker_inv]. repeat split; trivial.
    + rewrite (QueueProperties.dequeue_loop_item _ _ _ Hq).
      unfold isStopped. cbn [terminateFlag set_q]. rewrite Hf.
      destruct (IH (set_q items s) (executed ++ [f]) Hf) as [Hinv Hlive].
      cbn [q set_q] in Hinv, Hlive. rewrite <- app_assoc in Hinv, Hlive.
      split; [exact Hinv|].
      intros Hr. apply Hlive. cbn [length] in Hr. lia.
Qed.

(** A waiting worker that is woken by the arrival of [batch]. *)
Lemma queueListener_woken me (batch : list function) :
  forall rounds (s : spoke) executed,
  terminateFlag s = false -> q s = [] ->
  worker_inv (queueListener (S rounds) me [producers batch] s executed)
    (executed ++ batch)
  /\ (length batch <= rounds ->
      exists s', queueListener (S rounds) me [producers batch] s executed
                 = Waiting (executed ++ batch) s').
Proof.
  intros rounds s executed Hf Hq.
  cbn [queueListener]. unfold dequeue. rewrite Hf.
  rewrite QueueProperties.dequeue_loop_woken by exact Hq.
  destruct (QueueProperties.cv_wait_producers me batch s) as [Hq1 Hf1].
  rewrite Hq in Hq1. cbn [app] in Hq1. rewrite Hf in Hf1. rewrite Hf1.
  destruct batch as [|f items].
  - rewrite QueueProperties.dequeue_loop_blocked by exact Hq1.
    rewrite app_nil_r. split; [|eauto].
    cbn [worker_inv]. repeat split; trivial.
  - rewrite (QueueProperties.dequeue_loop_item _ _ _ Hq1).
    unfold isStopped. cbn [terminateFlag set_q]. rewrite Hf1.
    destruct (queueListener_alone me rounds
                (set_q items (cv_wait me (producers (f :: items)) s))
                (executed ++ [f]) Hf1) as [Hinv Hlive].
    cbn [q set_q] in Hinv, Hlive. rewrite <- app_assoc in Hinv, Hlive.
    split; [exact Hinv|].
    intros Hr. apply Hlive. cbn [length] in Hr. lia.
Qed.

(** One stint keeps the account of the worker. *)
Lemma listener_stint_inv me (st : stint) (w : worker_state) arrived :
  worker_inv w arrived ->
  worker_inv (listener_stints me [st] w) (arrived ++ arriving st).
Proof.
  destruct w as [executed s|executed s|executed s]; cbn [listener_stints worker_inv].
  - intros [].
  - intros (<- & Hq & Hf).
    exact (proj1 (queueListener_woken me (arriving st) (further_rounds st)
                    s executed Hf Hq)).
  - intros (<- & Hf).
    assert (Hf' : terminateFlag (enqueue_all (arriving st) s) = false)
      by now rewrite QueueProperties.enqueue_all_terminateFlag.
    pose proof (proj1 (queueListener_alone me (S (further_rounds st))
                         (enqueue_all (arriving st) s) executed Hf')) as Hinv.
    rewrite QueueProperties.enqueue_all_q, app_assoc in Hinv. exact Hinv.
Qed.

Lemma listener_stints_app me (stints1 stints2 : list stint) :
  forall w,
  listener_stints me (stints1 ++ stints2) w
  = listener_stints me stints2 (listener_stints me stints1 w).
Proof.
  induction stints1 as [|st stints1 IH]; intros w; [reflexivity|].
  cbn [app listener_stints]. apply IH.
Qed.

(** Whatever the stints, the worker has executed, in order and once each,
    the first of the tasks that arrived, and the others are still queued. *)
Lemma listener_stints_inv me (stints : list stint) :
  forall w arrived,
  worker_inv w arrived ->
  worker_inv (listener_stints me stints w)
    (arrived ++ concat (map arriving stints)).
Proof.
  induction stints as [|st stints IH]; intros w arrived Hinv.
  - cbn. now rewrite app_nil_r.
  - change (st :: stints) with ([st] ++ stints).
    rewrite listener_stints_app. cbn [app map concat].
    rewrite app_assoc. apply IH. now apply listener_stint_inv.
Qed.

(** A last stint in which nothing arrives and the worker makes more rounds
    than tasks are left: it has executed everything and waits. *)
Lemma listener_last_stint me (w : worker_state) arrived r :
  worker_inv w arrived -> length arrived <= r ->
  exists s, listener_stints me [mkStint [] r] w = Waiting arrived s.
Proof.
  destruct w as [executed s|executed s|executed s]; cbn [listener_stints worker_inv arriving further_rounds].
  - intros [].
  - intros (<- & Hq & Hf) Hr.
    destruct (proj2 (queueListener_woken me [] r s executed Hf Hq))
      as [s' Hs']; [cbn; lia|].
    rewrite app_nil_r in Hs'. eauto.
  - intros (<- & Hf) Hr. rewrite length_app in Hr.
    destruct (proj2 (queueListener_alone me (S r) s executed Hf))
      as [s' Hs']; [lia|]. eauto.
Qed.

(** The stints of a spoke bring it its share of the tasks submitted. *)
Lemma stints_on_arriving N i (schedule : list (list function * nat)) :
  forall pos,
  concat (map arriving (stints_on N i pos schedule))
  = share N i pos (concat (map fst schedule)).
Proof.
  induction schedule as [|[batch r] schedule IH]; intros pos; [reflexivity|].
  cbn [stints_on map concat fst arriving]. now rewrite share_app, IH.
Qed.

Lemma stints_on_app N i (schedule1 schedule2 : list (list function * nat)) :
  forall pos,
  stints_on N i pos (schedule1 ++ schedule2)
  = stints_on N i pos schedule1
    ++ stints_on N i (pos + length (concat (map fst schedule1))) schedule2.
Proof.
  induction schedule1 as [|[batch r] schedule1 IH]; intros pos.
  - cbn. now rewrite Nat.add_0_r.
  - cbn [app stints_on map concat fst]. rewrite IH, length_app.
    now rewrite Nat.add_assoc.
Qed.

(** C8 (amended) — Round-robin fairness, the ring being the strictly cyclic
    one of the specification: M tasks submitted one after the other by one
    thread to a pool of N spokes are placed so that spoke i holds, in
    submission order, the tasks at the positions i, i+N, i+2N, ...; that
    makes M/N tasks (rounded down) on each spoke plus one more on each of
    the first M mod N spokes, hence exactly M/N on each spoke when N
    divides M.  Every task is on exactly one spoke, once; and the worker
    bound to a spoke, the spoke not being stopped, executes the tasks of
    its spoke once each, in order: if it starts when all are submitted it
    executes them and then waits; and however its rounds are interleaved
    with the submissions (tasks arriving while it is between two rounds,
    or waking it from the [dequeue] it is blocked in, or spurious
    wake-ups), what it has executed, followed by what is still queued on
    its spoke, is at every moment the tasks of its spoke in order, and once
    it is given more rounds than it has tasks it has executed all of them
    and waits. *)
Theorem round_robin_distribution (N : nat) (tasks : list function) :
  0 < N ->
  let p := run_all tasks (initial N) in
  let M := length tasks in
  (forall i, i < N ->
     queued i p = share N i 0 tasks
     /\ length (queued i p) = M / N + (if i <? M mod N then 1 else 0)
     /\ (M mod N = 0 -> length (queued i p) = M / N)
     /\ exists s, spoke_at i p = Some s
          /\ forall me,
             queueListener (S (length (queued i p))) me [] s []
             = Waiting (queued i p) (sleep me (set_q [] s)))
  /\ concat (map (fun i => queued i p) (seq 0 N)) ≡ₚ tasks
  /\ (forall i me (schedule : list (list function * nat)),
        i < N -> concat (map fst schedule) = tasks ->
        let start := Running [] (construct EmptyFunction) in
        worker_inv (listener_stints me (stints_on N i 0 schedule) start)
          (queued i p)
        /\ forall r, length (queued i p) <= r ->
             exists s,
               listener_stints me (stints_on N i 0 (schedule ++ [([], r)]))
                 start
               = Waiting (queued i p) s).
Proof.
  intros HN p M.
  assert (Hq : forall i, queued i p = share N i 0 tasks).
  { intros i. unfold p.
    destruct (run_all_queued tasks i (initial_ok HN)) as [-> _].
    now rewrite initial_queued. }
  destruct (run_all_queued tasks 0 (initial_ok HN)) as [_ Hok].
  fold p in Hok. destruct Hok as (Hlen & _ & Hflags).
  split; [|split].
  - intros i Hi.
    assert (Hcount : length (queued i p)
                     = M / N + (if i <? M mod N then 1 else 0)).
    { rewrite Hq. now apply share_length. }
    split; [apply Hq|]. split; [exact Hcount|]. split.
    + intros Hdiv. rewrite Hcount, Hdiv. simpl. lia.
    + destruct (lookup_lt_is_Some_2 (wheelySpokes (threadPooledFunctions p)) i)
        as [s Hs]; [lia|].
      exists s. split; [exact Hs|]. intros me.
      assert (Hqs : queued i p = q s).
      { unfold queued, spoke_at. now rewrite Hs. }
      rewrite Hqs.
      apply (queueListener_drains me (items:=q s)); trivial.
      * exact (Hflags i s Hs).
      * lia.
  - erewrite map_ext by (intros i; apply Hq).
    now apply shares_partition.
  - intros i me schedule Hi Htasks start.
    assert (Hstart : worker_inv start []) by (split; reflexivity).
    pose proof (listener_stints_inv me (stints_on N i 0 schedule) start []
                  Hstart) as Hinv.
    rewrite stints_on_arriving, Htasks in Hinv. cbn [app] in Hinv.
    rewrite Hq. split; [exact Hinv|].
    intros r Hr.
    rewrite stints_on_app, listener_stints_app.
    cbn [stints_on share]. now apply listener_last_stint.
Qed.

(** C8 (instance) — Scenario C: two spokes, four tasks; the worker of
    spoke 0 starts when T1 is submitted, is blocked when T2 and T3 arrive,
    and is running T3 when T4 is submitted. *)
Lemma round_robin_distribution_witness :
  let p := run_all [Job 1; Job 2; Job 3; Job 4] (initial 2) in
  0 < 2
  /\ queued 0 p = [Job 1; Job 3]
  /\ queued 1 p = [Job 2; Job 4]
  /\ length (queued 0 p) = 4 / 2
  /\ length (queued 1 p) = 4 / 2
  /\ concat (map fst [([Job 1], 1); ([Job 2; Job 3], 0); ([Job 4], 0)])
     = [Job 1; Job 2; Job 3; Job 4]
  /\ exists s,
       listener_stints 7
         (stints_on 2 0 0
            ([([Job 1], 1); ([Job 2; Job 3], 0); ([Job 4], 0)] ++ [([], 2)]))
         (Running [] (construct EmptyFunction))
       = Waiting (queued 0 p) s.
Proof.
  intros p.
  pose proof (@round_robin_distribution 2 [Job 1; Job 2; Job 3; Job 4]
                ltac:(lia)) as (Hspokes & _ & Hworkers).
  cbv zeta in Hspokes, Hworkers. fold p in Hspokes, Hworkers.
  destruct (Hspokes 0 ltac:(lia)) as (H0 & _ & D0 & _).
  destruct (Hspokes 1 ltac:(lia)) as (H1 & _ & D1 & _).
  destruct (Hworkers 0 7 [([Job 1], 1); ([Job 2; Job 3], 0); ([Job 4], 0)]
              ltac:(lia) eq_refl) as [_ Hlive].
  split; [lia|]. split; [exact H0|]. split; [exact H1|].
  split; [exact (D0 eq_refl)|]. split; [exact (D1 eq_refl)|].
  split; [reflexivity|]. apply (Hlive 2). rewrite H0. cbn. lia.
Defined.

(** The pool of the header has [nThreads] spokes: eight tasks, two on
    each. *)
Example eight_tasks_on_nThreads_spokes :
  let p := run_all (map Job (seq 1 8)) (initial nThreads) in
  queued 0 p = [Job 1; Job 5] /\ queued 1 p = [Job 2; Job 6]
  /\ queued 2 p = [Job 3; Job 7] /\ queued 3 p = [Job 4; Job 8].
Proof. repeat split. Qed.

(** C8 (the claim as stated fails) — two spokes, three tasks: spoke 0 gets
    two of them and spoke 1 one, so neither 3/2 nor any other number is the
    number of tasks on each spoke. *)
Lemma three_tasks_on_two_spokes :
  let p := run_all [Job 1; Job 2; Job 3] (initial 2) in
  queued 0 p = [Job 1; Job 3]
  /\ queued 1 p = [Job 2]
  /\ length (queued 0 p) <> 3 / 2
  /\ length (queued 0 p) <> length (queued 1 p).
Proof. repeat split; discriminate. Qed.

(** *** [startup] under concurrent callers *)

Lemma startup_begin_inv N callers : startup_inv N (startup_begin N callers).
Proof.
  unfold startup_inv, startup_begin. simpl. repeat split; trivial.
  - intros t pc Hpc. apply lookup_replicate_1 in Hpc as [-> _]. discriminate.
  - intros t Hpc. apply lookup_replicate_1 in Hpc as [? _]. discriminate.
Qed.

(** The point of a caller after a step of caller [t]. *)
Lemma lookup_after_step (pcs : list startup_pc) t pc' t' pc :
  <[t := pc']> pcs !! t' = Some pc ->
  (t' = t /\ pc = pc') \/ (t' <> t /\ pcs !! t' = Some pc).
Proof.
  intros Hl. apply list_lookup_insert_Some in Hl.
  destruct Hl as [(-> & -> & _) | (Hne & Hl)]; [left | right]; auto.
Qed.

Lemma startup_step_inv N t cfg cfg' :
  startup_inv N cfg -> startup_step N t cfg = Some cfg' -> startup_inv N cfg'.
Proof.
  destruct cfg as [p pcs]. intros (Hcrit & Hheld & Hleft) Hstep.
  unfold startup_step in Hstep.
  destruct (pcs !! t) as [pc|] eqn:Ht; [|discriminate].
  assert (Hlt : t < length pcs) by (apply lookup_lt_Some in Ht; exact Ht).
  assert (Hother : forall h, tpLock p = Some h -> h <> t ->
            forall x, <[t := x]> pcs !! h = pcs !! h).
  { intros h _ Hne x. apply list_lookup_insert_ne. congruence. }
  destruct pc.
  - (* the unlocked read of the flag *)
    injection Hstep as <-. unfold startup_inv. split; [|split].
    + intros t' pc Hl Hc. apply lookup_after_step in Hl as [[-> ->]|[_ Hl]].
      * destruct (isStarted p); discriminate.
      * eauto.
    + destruct (tpLock p) as [h|] eqn:Hh; [|exact Hheld].
      rewrite Hother; trivial.
      intros ->. rewrite Ht in Hheld. exact Hheld.
    + intros t' Hl. apply lookup_after_step in Hl as [[-> E]|[_ Hl]].
      * destruct (isStarted p); [reflexivity | discriminate].
      * eauto.
  - (* taking the lock *)
    destruct (tpLock p) as [h|] eqn:Hh; [discriminate|].
    injection Hstep as <-. unfold startup_inv. simpl. split; [|split].
    + intros t' pc Hl Hc. apply lookup_after_step in Hl as [[-> ->]|[_ Hl]].
      * reflexivity.
      * specialize (Hcrit _ _ Hl Hc). congruence.
    + rewrite list_lookup_insert_eq by exact Hlt. exact Hheld.
    + intros t' Hl. apply lookup_after_step in Hl as [[-> E]|[_ Hl]].
      * discriminate.
      * eauto.
  - (* the read of the flag under the lock *)
    injection Hstep as <-. unfold startup_inv.
    assert (Hh : tpLock p = Some t) by (eapply Hcrit; eauto).
    rewrite Hh, Ht in Hheld. rewrite Hh. split; [|split].
    + intros t' pc Hl Hc. apply lookup_after_step in Hl as [[-> ->]|[_ Hl]].
      * reflexivity.
      * rewrite <- Hh. eauto.
    + rewrite list_lookup_insert_eq by exact Hlt.
      destruct (isStarted p); auto with arith.
    + intros t' Hl. apply lookup_after_step in Hl as [[-> E]|[_ Hl]].
      * destruct (isStarted p); discriminate.
      * eauto.
  - (* spawning a worker, or setting the flag when all are spawned *)
    assert (Hh : tpLock p = Some t) by (eapply Hcrit; eauto).
    rewrite Hh, Ht in Hheld. destruct Hheld as (Hns & Hi & Hqm).
    destruct (Nat.ltb_spec i N) as [HiN|HiN]; injection Hstep as <-;
      unfold startup_inv; simpl; rewrite Hh; (split; [|split]).
    + intros t' pc Hl Hc. apply lookup_after_step in Hl as [[-> ->]|[_ Hl]].
      * reflexivity.
      * rewrite <- Hh. eauto.
    + rewrite list_lookup_insert_eq by exact Hlt.
      split; [exact Hns|]. split; [lia|]. now rewrite Hqm, seq_S.
    + intros t' Hl. apply lookup_after_step in Hl as [[-> E]|[_ Hl]].
      * discriminate.
      * eauto.
    + intros t' pc Hl Hc. apply lookup_after_step in Hl as [[-> ->]|[_ Hl]].
      * reflexivity.
      * rewrite <- Hh. eauto.
    + rewrite list_lookup_insert_eq by exact Hlt.
      split; [reflexivity|]. replace N with i by lia. exact Hqm.
    + reflexivity.
  - (* releasing the lock *)
    assert (Hh : tpLock p = Some t) by (eapply Hcrit; eauto).
    rewrite Hh, Ht in Hheld. destruct Hheld as (Hs & Hqm).
    injection Hstep as <-. unfold startup_inv. simpl. split; [|split].
    + intros t' pc Hl Hc. apply lookup_after_step in Hl as [[-> ->]|[Hne Hl]].
      * discriminate.
      * specialize (Hcrit _ _ Hl Hc). congruence.
    + now rewrite Hs.
    + intros _ _. exact Hs.
  - discriminate.
Qed.

Lemma startup_run_inv N schedule :
  forall cfg, startup_inv N cfg -> startup_inv N (startup_run N schedule cfg).
Proof.
  induction schedule as [|t schedule IH]; intros cfg Hinv; simpl; trivial.
  destruct (startup_step N t cfg) as [cfg'|] eqn:Hstep; apply IH; trivial.
  eapply startup_step_inv; eauto.
Qed.

Lemma startup_step_length N t cfg cfg' :
  startup_step N t cfg = Some cfg' -> length (snd cfg') = length (snd cfg).
Proof.
  destruct cfg as [p pcs]. unfold startup_step.
  destruct (pcs !! t) as [[]|]; try discriminate;
    try (intros [= <-]; simpl; apply length_insert).
  - destruct (tpLock p); [discriminate|].
    intros [= <-]; simpl; apply length_insert.
  - destruct (i <? N); intros [= <-]; simpl; apply length_insert.
Qed.

Lemma startup_run_length N schedule :
  forall cfg, length (snd (startup_run N schedule cfg)) = length (snd cfg).
Proof.
  induction schedule as [|t schedule IH]; intros cfg; simpl; trivial.
  destruct (startup_step N t cfg) as [cfg'|] eqn:Hstep; rewrite IH; trivial.
  eapply startup_step_length; eauto.
Qed.

(** The workers spawned at any moment. *)
Lemma startup_inv_monitors N cfg :
  startup_inv N cfg ->
  exists i, i <= N /\ queueMonitors (fst cfg) = seq 0 i.
Proof.
  destruct cfg as [p pcs]. intros (_ & Hheld & _). simpl.
  assert (Hflag : queueMonitors p = (if isStarted p then seq 0 N else []) ->
                  exists i, i <= N /\ queueMonitors p = seq 0 i).
  { destruct (isStarted p); [exists N | exists 0]; auto with arith. }
  destruct (tpLock p) as [h|]; [|auto].
  destruct (pcs !! h) as [[]|]; try contradiction; auto.
  - destruct Hheld as (_ & Hi & Hqm). eauto.
  - destruct Hheld as (_ & Hqm). eauto.
Qed.

Lemma all_left_lookup (cfg : config) :
  all_left cfg = true <-> forall t pc, snd cfg !! t = Some pc -> pc = Left.
Proof.
  unfold all_left. rewrite forallb_forall. split.
  - intros Hall t pc Hl.
    assert (Hin : In pc (snd cfg)).
    { apply list_elem_of_In, list_elem_of_lookup. eauto. }
    specialize (Hall pc Hin). now destruct pc.
  - intros Hall pc Hin.
    apply list_elem_of_In, list_elem_of_lookup in Hin as [t Hl].
    now rewrite (Hall t pc Hl).
Qed.

Lemma not_all_left (cfg : config) :
  all_left cfg = false -> exists t pc, snd cfg !! t = Some pc /\ pc <> Left.
Proof.
  unfold all_left. destruct cfg as [p pcs]. simpl.
  induction pcs as [|pc pcs IH]; simpl; [discriminate|].
  intros Hall. apply andb_false_iff in Hall as [Hpc|Hrest].
  - exists 0, pc. split; [reflexivity|]. intros ->. discriminate.
  - destruct (IH Hrest) as (t & pc' & Hl & Hne). exists (S t), pc'. auto.
Qed.

(** When every caller has left, the flag is set, the lock is free and the
    [N] workers are there. *)
Lemma startup_inv_all_left N cfg :
  startup_inv N cfg -> 0 < length (snd cfg) -> all_left cfg = true ->
  isStarted (fst cfg) = true
  /\ tpLock (fst cfg) = None
  /\ queueMonitors (fst cfg) = seq 0 N.
Proof.
  destruct cfg as [p pcs]. intros (_ & Hheld & Hleft) Hlen Hall. simpl in *.
  rewrite all_left_lookup in Hall. simpl in Hall.
  assert (Hs : isStarted p = true).
  { destruct (lookup_lt_is_Some_2 pcs 0 Hlen) as [pc Hpc].
    apply (Hleft 0). now rewrite Hpc, (Hall _ _ Hpc). }
  split; [exact Hs|].
  destruct (tpLock p) as [h|].
  - destruct (pcs !! h) as [pc|] eqn:Hh; [|contradiction].
    rewrite (Hall _ _ Hh) in Hheld. contradiction.
  - split; [reflexivity|]. now rewrite Hs in Hheld.
Qed.

(** No deadlock: as long as a caller has not left, some caller can step. *)
Lemma startup_progress N cfg :
  startup_inv N cfg -> all_left cfg = false ->
  exists t cfg', t < length (snd cfg) /\ startup_step N t cfg = Some cfg'.
Proof.
  destruct cfg as [p pcs]. intros (Hcrit & Hheld & _) Hall.
  destruct (tpLock p) as [h|] eqn:Hh.
  - destruct (pcs !! h) as [pc|] eqn:Hpc; [|contradiction].
    exists h. unfold startup_step. rewrite Hpc.
    apply lookup_lt_Some in Hpc. simpl.
    destruct pc; try contradiction; eauto.
    destruct (i <? N); eauto.
  - destruct (not_all_left _ Hall) as (t & pc & Hpc & Hne). simpl in Hpc.
    exists t. unfold startup_step. rewrite Hpc, ?Hh.
    pose proof (Hcrit t pc Hpc) as Hc.
    apply lookup_lt_Some in Hpc. simpl.
    destruct pc; try (specialize (Hc eq_refl); discriminate);
      try contradiction; eauto.
Qed.

Lemma steps_left_insert N (pcs : list startup_pc) t pc pc' :
  pcs !! t = Some pc -> steps_left N pc' < steps_left N pc ->
  list_sum (map (steps_left N) (<[t := pc']> pcs))
  < list_sum (map (steps_left N) pcs).
Proof.
  revert t. induction pcs as [|x pcs IH]; intros t Hl Hlt; [discriminate|].
  destruct t as [|t]; simpl in *.
  - injection Hl as ->. lia.
  - specialize (IH t Hl Hlt). lia.
Qed.

(** Every step brings the callers nearer to having left. *)
Lemma startup_step_decreases N t cfg cfg' :
  startup_step N t cfg = Some cfg' ->
  total_steps_left N cfg' < total_steps_left N cfg.
Proof.
  destruct cfg as [p pcs]. unfold startup_step, total_steps_left.
  destruct (pcs !! t) as [pc|] eqn:Ht; [|discriminate].
  destruct pc; try discriminate.
  - intros [= <-]. simpl. eapply steps_left_insert; [exact Ht|].
    destruct (isStarted p); simpl; lia.
  - destruct (tpLock p); [discriminate|].
    intros [= <-]. simpl. eapply steps_left_insert; [exact Ht|]. simpl; lia.
  - intros [= <-]. simpl. eapply steps_left_insert; [exact Ht|].
    destruct (isStarted p); simpl; lia.
  - destruct (Nat.ltb_spec i N); intros [= <-]; simpl;
      (eapply steps_left_insert; [exact Ht|simpl; lia]).
  - intros [= <-]. simpl. eapply steps_left_insert; [exact Ht|]. simpl; lia.
Qed.

(** From wherever the callers are, they can all be run until they have
    left. *)
Lemma startup_completes N :
  forall n cfg, total_steps_left N cfg < n -> startup_inv N cfg ->
  exists schedule, all_left (startup_run N schedule cfg) = true.
Proof.
  induction n as [|n IH]; intros cfg Hn Hinv; [lia|].
  destruct (all_left cfg) eqn:Hall.
  - exists []. exact Hall.
  - destruct (@startup_progress N cfg Hinv Hall) as (t & cfg' & _ & Hstep).
    destruct (IH cfg') as [schedule Hdone].
    + apply startup_step_decreases in Hstep. lia.
    + eapply startup_step_inv; eauto.
    + exists (t :: schedule). simpl. now rewrite Hstep.
Qed.

Lemma startup_run_app N schedule1 schedule2 cfg :
  startup_run N (schedule1 ++ schedule2) cfg
  = startup_run N schedule2 (startup_run N schedule1 cfg).
Proof.
  revert cfg. induction schedule1 as [|t schedule1 IH]; intros cfg; simpl.
  - reflexivity.
  - destruct (startup_step N t cfg); apply IH.
Qed.

(** C9 — Startup exactly-once under concurrency, for the [startup] of the
    specification: however the steps of T concurrent callers interleave,
    the worker threads spawned so far are at every moment those bound to
    the spokes 0, 1, ..., i-1 for some i <= N, each once (never more than
    N, whatever T); a caller that is spawning holds the lock and has found
    the flag unset, so that nobody spawns once the flag is set; a caller has
    left only once the flag is set; when all callers have left, exactly the N workers bound to spokes 0..N-1 exist,
    the flag is set and the lock is free.  The callers never deadlock:
    while one has not left some step is possible, every step strictly
    decreases the number of steps left, and every interleaving can be
    continued until all callers have left. *)
Theorem startup_spawns_workers_once (N callers : nat) (schedule : list thread) :
  0 < callers ->
  let cfg := startup_run N schedule (startup_begin N callers) in
  (exists i, i <= N /\ queueMonitors (fst cfg) = seq 0 i)
  /\ length (queueMonitors (fst cfg)) <= N
  /\ (forall t, snd cfg !! t = Some Left -> isStarted (fst cfg) = true)
  /\ (forall t i, snd cfg !! t = Some (Spawning i) ->
        tpLock (fst cfg) = Some t /\ isStarted (fst cfg) = false)
  /\ (all_left cfg = true ->
        queueMonitors (fst cfg) = seq 0 N
        /\ length (queueMonitors (fst cfg)) = N
        /\ isStarted (fst cfg) = true
        /\ tpLock (fst cfg) = None)
  /\ (all_left cfg = false ->
        exists t cfg', t < callers /\ startup_step N t cfg = Some cfg')
  /\ (forall t cfg', startup_step N t cfg = Some cfg' ->
        total_steps_left N cfg' < total_steps_left N cfg)
  /\ (exists more,
        all_left (startup_run N (schedule ++ more) (startup_begin N callers))
        = true).
Proof.
  intros Hcallers cfg.
  assert (Hinv : startup_inv N cfg)
    by apply startup_run_inv, startup_begin_inv.
  assert (Hlen : length (snd cfg) = callers).
  { unfold cfg. rewrite startup_run_length. simpl. apply length_replicate. }
  destruct (@startup_inv_monitors N cfg Hinv) as (i & Hi & Hqm).
  split; [eauto|]. split; [rewrite Hqm, length_seq; exact Hi|].
  split; [|split; [|split; [|split; [|split]]]].
  - destruct cfg as [p pcs]. destruct Hinv as (_ & _ & Hleft). exact Hleft.
  - destruct cfg as [p pcs]. destruct Hinv as (Hcrit & Hheld & _).
    simpl. intros t j Ht.
    assert (Hh : tpLock p = Some t) by (eapply Hcrit; eauto).
    rewrite Hh, Ht in Hheld. split; [exact Hh | apply Hheld].
  - intros Hall.
    destruct (@startup_inv_all_left N cfg Hinv) as (Hs & Hl & Hall_qm); trivial; [lia|].
    rewrite Hall_qm, length_seq. auto.
  - intros Hall. rewrite <- Hlen. now apply startup_progress.
  - intros t cfg'. apply startup_step_decreases.
  - destruct (@startup_completes N (S (total_steps_left N cfg)) cfg) as [more Hm];
      [lia | exact Hinv |].
    exists more. now rewrite startup_run_app.
Qed.

(** C9 (instance) — three callers of [startup] on a pool of four spokes,
    interleaved so that two of them pass the first read of the flag before
    the third has set it. *)
Lemma startup_spawns_workers_once_witness :
  let cfg := startup_run 4 [0; 1; 0; 1; 0; 0; 0; 0; 0; 0; 0; 2; 1; 1; 1]
               (startup_begin 4 3) in
  0 < 3
  /\ all_left cfg = true
  /\ queueMonitors (fst cfg) = [0; 1; 2; 3]
  /\ length (queueMonitors (fst cfg)) = 4.
Proof.
  intros cfg.
  pose proof (@startup_spawns_workers_once 4 3
                [0; 1; 0; 1; 0; 0; 0; 0; 0; 0; 0; 2; 1; 1; 1] ltac:(lia)) as P.
  cbv zeta in P. fold cfg in P.
  destruct P as (_ & _ & _ & _ & Hdone & _).
  destruct (Hdone eq_refl) as (Hqm & Hn & _).
  split; [lia|]. split; [reflexivity|]. split; [exact Hqm | exact Hn].
Defined.

End PoolProperties.

(** ** Further behaviour of SafeQueueVariant *)

Module QueueBehaviour.

Import Queue QueueProperties.

#[local] Arguments cv_wait : simpl never.

Section Behaviour.

Context {T : Type} `{DefaultConstructible T}.

Implicit Types (s : SafeQueueVariant T) (w : wakeup (T:=T)) (me : thread).

(** *** clear *)

Lemma pop_all_nil (items : list T) : pop_all items = [].
Proof. induction items as [|x items IH]; simpl; trivial. Qed.

(** X1 — [clear] removes every queued item, however many there are, and
    nothing else: the flag, the sentinel and the blocked threads are as
    they were (nobody is woken); afterwards the queue reports empty and
    size 0 and [nonBlockingDequeue] finds nothing.  It commutes with
    [stop]. *)
Theorem clear_removes_all_items s :
  q (clear s) = []
  /\ terminateFlag (clear s) = terminateFlag s
  /\ shutdownObject (clear s) = shutdownObject s
  /\ c (clear s) = c s
  /\ isEmpty (clear s) = true
  /\ size (clear s) = 0%Z
  /\ nonBlockingDequeue (clear s) = ((T_default, false), clear s)
  /\ clear (clear s) = clear s
  /\ clear (stop s) = stop (clear s).
Proof.
  assert (Hq : q (clear s) = []) by (simpl; apply pop_all_nil).
  repeat split; trivial.
  - unfold isEmpty. now rewrite Hq.
  - unfold size. now rewrite Hq.
  - unfold nonBlockingDequeue. now rewrite Hq.
  - apply queue_eq; simpl; trivial. now rewrite !pop_all_nil.
Qed.

(** X2 — Items queued before [clear] are never delivered: on an unstopped
    queue a blocking [dequeue] that follows [clear] blocks, whatever was
    queued, and when producers then enqueue it returns the first item
    enqueued after the [clear] and leaves the rest of them. *)
Theorem dequeue_after_clear me s :
  terminateFlag s = false ->
  dequeue me [] (clear s) = Blocked (sleep me (clear s))
  /\ forall x items rest,
       exists s',
         dequeue me (producers (x :: items) :: rest) (clear s)
         = Returned x s' rest
         /\ q s' = items /\ terminateFlag s' = false.
Proof.
  intros Hf.
  assert (Hq : q (clear s) = []) by (simpl; apply pop_all_nil).
  unfold dequeue. simpl terminateFlag. rewrite Hf. split.
  - now apply dequeue_loop_blocked.
  - intros x items rest.
    rewrite dequeue_loop_woken by exact Hq.
    destruct (cv_wait_producers me (x :: items) (clear s)) as [Hq' Hf'].
    rewrite Hq in Hq'. cbn [app] in Hq'.
    assert (Hfc : terminateFlag (clear s) = false) by exact Hf.
    rewrite Hfc in Hf'. rewrite Hf'.
    rewrite (dequeue_loop_item _ _ _ Hq').
    eexists. split; [reflexivity|]. split; [reflexivity | exact Hf'].
Qed.

(** *** Wake-ups without an enqueue and without a stop *)

Lemma adds_nothing_idle e s :
  adds_nothing e = true -> idle s = true -> idle (env_apply e s) = true.
Proof.
  intros He Hs. apply idle_inv in Hs as [Hf Hq].
  unfold idle, isEmpty.
  destruct e; try discriminate; simpl; rewrite ?Hq, ?Hf; simpl;
    rewrite ?Hq, ?Hf; reflexivity.
Qed.

Lemma uneventful_idle_env w s :
  uneventful w = true -> idle s = true -> idle (env_run w s) = true.
Proof.
  unfold uneventful, env_run. revert s.
  induction w as [|e w IH]; intros s Hw Hs; simpl in *; trivial.
  apply andb_prop in Hw as [He Hw].
  apply IH; trivial. now apply adds_nothing_idle.
Qed.

Lemma uneventful_idle me w s :
  uneventful w = true -> idle s = true -> idle (cv_wait me w s) = true.
Proof.
  intros Hw Hs. unfold cv_wait.
  assert (Hsl : idle (sleep me s) = true) by exact Hs.
  pose proof (uneventful_idle_env w (sleep me s) Hw Hsl) as Hi.
  exact Hi.
Qed.

Lemma uneventful_all_idle me (wakes : list (wakeup (T:=T))) s :
  forallb uneventful wakes = true -> idle s = true ->
  all_idle me wakes s = true /\ idle (cv_waits me wakes s) = true.
Proof.
  revert s. induction wakes as [|w wakes IH]; intros s Hw Hs.
  - split; trivial.
  - cbn [forallb] in Hw. apply andb_prop in Hw as [Hw1 Hw].
    pose proof (uneventful_idle me w s Hw1 Hs) as Hs1.
    destruct (IH _ Hw Hs1) as [Hall Hlast].
    cbn [all_idle]. rewrite Hs1, Hall. split; trivial.
Qed.

(** X3 — Only an enqueue or a stop ends a blocking [dequeue]: on an empty,
    unstopped queue, wake-ups during which the other threads only called
    [wakeWaiters], [clear] or [nonBlockingDequeue], or began to wait
    themselves (and spurious wake-ups), never make [dequeue] return; after
    any number of them the caller is blocked again and the queue is still
    empty and unstopped. *)
Theorem dequeue_sleeps_through_uneventful_wakeups me
    (wakes : list (wakeup (T:=T))) s :
  idle s = true -> forallb uneventful wakes = true ->
  dequeue me wakes s = Blocked (sleep me (cv_waits me wakes s))
  /\ idle (cv_waits me wakes s) = true.
Proof.
  intros Hs Hw.
  destruct (uneventful_all_idle me wakes s Hw Hs) as [Hall Hlast].
  split; [|exact Hlast].
  apply idle_inv in Hs as [Hf Hq]. unfold dequeue. rewrite Hf.
  destruct (dequeue_loop_idle_prefix me wakes [] s Hq Hall) as [E Hq'].
  rewrite app_nil_r in E. rewrite E. now apply dequeue_loop_blocked.
Qed.

(** *** wait *)

(** X4 — [wait()] returns at once, leaving the object untouched, when the
    queue is stopped or holds an item; on an empty, unstopped queue it
    blocks and returns at its first wake-up whatever that wake-up brought:
    after a wake-up without an enqueue and without a stop it has returned
    although the queue is still empty and unstopped. *)
Theorem wait_returns_at_first_wakeup me s :
  (idle s = false -> forall wakes, wait me wakes s = Returned tt s wakes)
  /\ (idle s = true ->
      wait me [] s = Blocked (sleep me s)
      /\ forall w rest,
           wait me (w :: rest) s = Returned tt (cv_wait me w s) rest
           /\ (uneventful w = true -> idle (cv_wait me w s) = true)).
Proof.
  split.
  - intros Hs wakes. unfold idle, isEmpty, wait in *.
    destruct (terminateFlag s); trivial.
    destruct (q s); [discriminate | reflexivity].
  - intros Hs. pose proof Hs as Hidle.
    apply idle_inv in Hs as [Hf Hq]. unfold wait. rewrite Hf, Hq.
    split; trivial. intros w rest. split; trivial.
    intros Hw. now apply uneventful_idle.
Qed.

(** X5 — [wait(duration)] answers true without data in two situations: on a
    stopped queue that still holds items it returns true at once, although
    [dequeue] and [wait_for_dequeue] then deliver none of them; and on an
    empty, unstopped queue it returns true when its [wait_for] ends without
    a time-out after a wake-up that brought nothing.  It returns false at
    once on a stopped, empty queue.  Unless the queue is empty and
    unstopped it returns without waiting and leaves the object untouched. *)
Theorem wait_timeout_true_without_data me (tw : timed_wakeup (T:=T)) s :
  (forall x items,
      terminateFlag s = true -> q s = x :: items ->
      wait_timeout me tw s = (true, s)
      /\ (forall wakes, dequeue me wakes s = Returned (shutdownObject s) s wakes)
      /\ (forall tw' : timed_wakeup,
            wait_for_dequeue me tw' s = Completed (T_default, false) s))
  /\ (idle s = true -> uneventful (during tw) = true ->
      status tw = no_timeout ->
      fst (wait_timeout me tw s) = true
      /\ isEmpty (snd (wait_timeout me tw s)) = true
      /\ isStopped (snd (wait_timeout me tw s)) = false)
  /\ (terminateFlag s = true -> q s = [] -> wait_timeout me tw s = (false, s))
  /\ (idle s = false -> snd (wait_timeout me tw s) = s).
Proof.
  split; [|split; [|split]].
  - intros x items Hf Hq. unfold wait_timeout. rewrite Hq.
    split; [reflexivity|]. split.
    + intros wakes. now apply dequeue_stopped.
    + intros tw'. now apply wait_for_dequeue_stopped.
  - intros Hs Hw Hst.
    pose proof (uneventful_idle me (during tw) s Hw Hs) as Hi.
    apply idle_inv in Hs as [Hf Hq].
    unfold wait_timeout. rewrite Hq, Hf, Hst. cbn [fst snd].
    apply idle_inv in Hi as [Hf' Hq'].
    unfold isEmpty, isStopped. now rewrite Hq', Hf'.
  - intros Hf Hq. unfold wait_timeout. now rewrite Hq, Hf.
  - unfold wait_timeout, idle, isEmpty.
    destruct (q s); [|reflexivity].
    destruct (terminateFlag s); [reflexivity | discriminate].
Qed.

(** *** nonBlockingDequeue, repeatedly *)

Lemma nonBlockingDequeue_n_spec n :
  forall s,
  nonBlockingDequeue_n n s
  = (map (fun x => (x, true)) (take n (q s))
       ++ repeat (T_default, false) (n - length (q s)),
     set_q (drop n (q s)) s).
Proof.
  induction n as [|n IH]; intros s.
  - simpl. f_equal. now destruct s.
  - cbn [nonBlockingDequeue_n]. unfold nonBlockingDequeue.
    destruct (q s) as [|x items] eqn:Hq.
    + rewrite IH, Hq. rewrite take_nil, drop_nil. simpl.
      rewrite Nat.sub_0_r. reflexivity.
    + rewrite IH. reflexivity.
Qed.

(** X6 — [nonBlockingDequeue] hands the items out first in, first out, and
    does so on a stopped queue as well: after k enqueues on a fresh queue,
    with or without a [stop] after them, k + n calls return the k items in
    the order of their enqueueing, each with true, then n times
    (default, false); the queue is then as it was constructed (stopped, if
    it was stopped). *)
Theorem nonBlockingDequeue_drains_in_order (sentinel : T) (items : list T)
    (n : nat) :
  nonBlockingDequeue_n (length items + n) (enqueue_all items (construct sentinel))
  = (map (fun x => (x, true)) items ++ repeat (T_default, false) n,
     construct sentinel)
  /\ nonBlockingDequeue_n (length items + n)
       (stop (enqueue_all items (construct sentinel)))
     = (map (fun x => (x, true)) items ++ repeat (T_default, false) n,
        stop (construct sentinel)).
Proof.
  assert (Hq : q (enqueue_all items (construct sentinel)) = items)
    by now rewrite enqueue_all_q.
  assert (Ht : take (length items + n) items = items)
    by (apply firstn_all2; lia).
  assert (Hd : drop (length items + n) items = [])
    by (apply skipn_all2; lia).
  split; rewrite nonBlockingDequeue_n_spec; cbn [q stop notify_all wakeWaiters
    set_terminateFlag set_c]; rewrite Hq, Ht, Hd;
    (replace (length items + n - length items) with n by lia); f_equal;
    apply queue_eq; simpl; trivial;
    try apply enqueue_all_shutdownObject;
    try apply enqueue_all_terminateFlag.
  now apply enqueue_all_c.
Qed.

(** *** The observers *)

(** X7 — [size()] is always in the range of [unsigned int]; [isEmpty()] is
    true exactly when no item is queued, and then [size()] is 0; as long as
    fewer than 2^32 items are queued, [size()] is 0 only when [isEmpty()]
    is true. *)
Theorem size_and_isEmpty s :
  (0 <= size s < 2 ^ UINT_BITS)%Z
  /\ (isEmpty s = true <-> q s = [])
  /\ (isEmpty s = true -> size s = 0%Z)
  /\ ((Z.of_nat (length (q s)) < 2 ^ UINT_BITS)%Z ->
      size s = 0%Z -> isEmpty s = true).
Proof.
  unfold size, isEmpty, to_unsigned_int. split; [|split; [|split]].
  - apply Z.mod_pos_bound. reflexivity.
  - destruct (q s); split; congruence.
  - destruct (q s); [reflexivity | discriminate].
  - intros Hlt Hz. rewrite Z.mod_small in Hz by lia.
    destruct (q s); [reflexivity | simpl in Hz; lia].
Qed.

(** *** enqueue on a stopped queue *)

(** X8 — [enqueue] does not look at the flag: on a stopped queue the item
    is still appended, the queue stays stopped, and the waiting dequeues
    go on returning the sentinel and (default, false) without touching it;
    if the queue was empty, [nonBlockingDequeue] delivers it. *)
Theorem enqueue_on_stopped_queue (t : T) s :
  terminateFlag s = true ->
  q (enqueue t s) = q s ++ [t]
  /\ isStopped (enqueue t s) = true
  /\ (forall me wakes,
        dequeue me wakes (enqueue t s)
        = Returned (shutdownObject s) (enqueue t s) wakes)
  /\ (forall me (tw : timed_wakeup),
        wait_for_dequeue me tw (enqueue t s)
        = Completed (T_default, false) (enqueue t s))
  /\ (q s = [] -> fst (nonBlockingDequeue (enqueue t s)) = (t, true)).
Proof.
  intros Hf. split; [reflexivity|]. split; [exact Hf|]. split; [|split].
  - intros me wakes. now rewrite dequeue_stopped.
  - intros me tw. now apply wait_for_dequeue_stopped.
  - intros Hq. unfold nonBlockingDequeue. simpl. now rewrite Hq.
Qed.

(** *** The sentinel *)

Lemma dequeue_loop_shutdownObject me (wakes : list (wakeup (T:=T))) :
  forall s,
  match dequeue_loop me wakes s with
  | Returned _ s' _ | Blocked s' => shutdownObject s' = shutdownObject s
  end.
Proof.
  induction wakes as [|w wakes IH]; intros s;
    destruct (q s) as [|x items] eqn:Hq.
  - now rewrite dequeue_loop_blocked.
  - now rewrite (dequeue_loop_item _ _ _ Hq).
  - rewrite dequeue_loop_woken by exact Hq.
    destruct (terminateFlag (cv_wait me w s)).
    + apply cv_wait_shutdownObject.
    + specialize (IH (cv_wait me w s)).
      destruct (dequeue_loop me wakes (cv_wait me w s));
        rewrite IH; apply cv_wait_shutdownObject.
  - now rewrite (dequeue_loop_item _ _ _ Hq).
Qed.

Lemma run_call_shutdownObject (k : call) s :
  match run_call k s with
  | Finished _ s' | Hung s' => shutdownObject s' = shutdownObject s
  | Crashed => True
  end.
Proof.
  destruct k as [t|me wakes|me tw| | | |me wakes|me tw| | | | ]; cbn [run_call]; trivial.
  - unfold dequeue. destruct (terminateFlag s); trivial.
    pose proof (dequeue_loop_shutdownObject me wakes s) as Hd.
    now destruct (dequeue_loop me wakes s).
  - unfold wait_for_dequeue. destruct (terminateFlag s); trivial.
    destruct (status tw).
    + destruct (q (cv_wait me (during tw) s)); trivial.
      apply cv_wait_shutdownObject.
    + apply cv_wait_shutdownObject.
  - unfold nonBlockingDequeue. now destruct (q s).
  - unfold wait. destruct (terminateFlag s); trivial.
    destruct (q s); trivial. destruct wakes; trivial.
    apply cv_wait_shutdownObject.
  - unfold wait_timeout. destruct (q s); trivial.
    destruct (terminateFlag s); trivial. apply cv_wait_shutdownObject.
Qed.

Lemma run_calls_shutdownObject (ks : list call) :
  forall s vs s',
  run_calls ks s = Some (vs, s') -> shutdownObject s' = shutdownObject s.
Proof.
  induction ks as [|k ks IH]; intros s vs s' Hrun; simpl in Hrun.
  - now injection Hrun as <- <-.
  - pose proof (run_call_shutdownObject k s) as Hk.
    destruct (run_call k s) as [v s1| |]; try discriminate.
    destruct (run_calls ks s1) as [[vs1 s2]|] eqn:Hrest; [|discriminate].
    injection Hrun as <- <-. rewrite (IH _ _ _ Hrest). exact Hk.
Qed.

(** X9 — No member function ever assigns the sentinel: whatever calls are
    made on a queue, by whatever threads, returning or blocking for ever,
    [shutdownObject] is what the constructor was given; so a blocking
    [dequeue] on the queue, once it is stopped, returns the constructor's
    argument. *)
Theorem shutdownObject_never_changes (sentinel : T) (ks : list call)
    (vs : list value) s' :
  run_calls ks (construct sentinel) = Some (vs, s') ->
  shutdownObject s' = sentinel
  /\ (forall k : call,
        match run_call k s' with
        | Finished _ s'' | Hung s'' => shutdownObject s'' = sentinel
        | Crashed => True
        end)
  /\ (forall me wakes,
        dequeue me wakes (stop s') = Returned sentinel (stop s') wakes).
Proof.
  intros Hrun. apply run_calls_shutdownObject in Hrun. simpl in Hrun.
  split; [exact Hrun|]. split.
  - intros k. pose proof (run_call_shutdownObject k s') as Hk.
    destruct (run_call k s'); trivial; congruence.
  - intros me wakes. rewrite dequeue_stopped by reflexivity.
    simpl. now rewrite Hrun.
Qed.

(** *** Who sets the flag *)

Lemma env_apply_stop_free e s :
  raises_flag e = false -> terminateFlag (env_apply e s) = terminateFlag s.
Proof.
  destruct e; try discriminate; trivial. simpl. now destruct (q s).
Qed.

Lemma env_run_stop_free w s :
  stop_free_wakeup w = true -> terminateFlag (env_run w s) = terminateFlag s.
Proof.
  unfold stop_free_wakeup, env_run. revert s.
  induction w as [|e w IH]; intros s Hw; simpl in *; trivial.
  apply andb_prop in Hw as [He Hw]. rewrite (IH _ Hw).
  apply env_apply_stop_free. now destruct (raises_flag e).
Qed.

Lemma cv_wait_stop_free me w s :
  stop_free_wakeup w = true -> terminateFlag (cv_wait me w s) = terminateFlag s.
Proof.
  intros Hw. unfold cv_wait.
  change (terminateFlag (env_run w (sleep me s)) = terminateFlag (sleep me s)).
  now apply env_run_stop_free.
Qed.

Lemma dequeue_loop_stop_free me (wakes : list (wakeup (T:=T))) :
  forall s,
  forallb stop_free_wakeup wakes = true -> terminateFlag s = false ->
  match dequeue_loop me wakes s with
  | Returned _ s' _ | Blocked s' => terminateFlag s' = false
  end.
Proof.
  induction wakes as [|w wakes IH]; intros s Hw Hf;
    destruct (q s) as [|x items] eqn:Hq.
  - now rewrite dequeue_loop_blocked.
  - now rewrite (dequeue_loop_item _ _ _ Hq).
  - rewrite dequeue_loop_woken by exact Hq.
    cbn [forallb] in Hw. apply andb_prop in Hw as [Hw1 Hw].
    rewrite (cv_wait_stop_free me w s Hw1), Hf.
    apply IH; trivial. now rewrite (cv_wait_stop_free me w s Hw1).
  - now rewrite (dequeue_loop_item _ _ _ Hq).
Qed.

Lemma run_call_stop_free (k : call) s :
  stop_free k = true -> terminateFlag s = false ->
  match run_call k s with
  | Finished _ s' | Hung s' => terminateFlag s' = false
  | Crashed => True
  end.
Proof.
  intros Hk Hf. destruct k as [t|me wakes|me tw| | | |me wakes|me tw| | | | ]; cbn [run_call]; trivial;
    cbn [stop_free] in Hk.
  - unfold dequeue. rewrite Hf.
    pose proof (dequeue_loop_stop_free me wakes s Hk Hf) as Hd.
    now destruct (dequeue_loop me wakes s).
  - unfold wait_for_dequeue. rewrite Hf.
    pose proof (cv_wait_stop_free me (during tw) s Hk) as Hc.
    rewrite Hf in Hc.
    destruct (status tw); [destruct (q (cv_wait me (during tw) s))|]; trivial.
  - unfold nonBlockingDequeue. now destruct (q s).
  - unfold wait. rewrite Hf. destruct (q s); trivial.
    destruct wakes as [|w wakes]; trivial.
    cbn [forallb] in Hk. apply andb_prop in Hk as [Hw _].
    now rewrite (cv_wait_stop_free me w s Hw).
  - unfold wait_timeout. destruct (q s); trivial. rewrite Hf.
    cbn [snd]. now rewrite (cv_wait_stop_free me (during tw) s Hk).
  - discriminate.
Qed.

(** X10 — Only [stop] sets the flag: a queue on which [stop] was never
    called, as a call or by another thread during a wait, is not stopped,
    whatever else was called on it. *)
Theorem only_stop_sets_the_flag (sentinel : T) (ks : list call)
    (vs : list value) s' :
  forallb stop_free ks = true ->
  run_calls ks (construct sentinel) = Some (vs, s') ->
  isStopped s' = false
  /\ (forall k : call, stop_free k = true ->
        match run_call k s' with
        | Finished _ s'' | Hung s'' => isStopped s'' = false
        | Crashed => True
        end).
Proof.
  intros Hks Hrun.
  assert (Hgen : forall (l : list call) s vs0 s0,
            forallb stop_free l = true -> terminateFlag s = false ->
            run_calls l s = Some (vs0, s0) -> terminateFlag s0 = false).
  { induction l as [|k l IH]; intros s vs0 s0 Hl Hf Hr; simpl in Hr.
    - now injection Hr as <- <-.
    - cbn [forallb] in Hl. apply andb_prop in Hl as [Hk Hl].
      pose proof (run_call_stop_free k s Hk Hf) as Hstep.
      destruct (run_call k s) as [v s1| |]; try discriminate.
      destruct (run_calls l s1) as [[vs1 s2]|] eqn:Hrest; [|discriminate].
      injection Hr as <- <-. exact (IH s1 vs1 s2 Hl Hstep Hrest). }
  assert (Hf : terminateFlag s' = false)
    by exact (Hgen ks (construct sentinel) vs s' Hks eq_refl Hrun).
  split; [exact Hf|].
  intros k Hk. now apply run_call_stop_free.
Qed.

(** *** A stop during a timed wait *)

(** X11 — [wait_for_dequeue] reads the flag only before it waits: when
    [stop] is called during its wait and the queue holds an item when it
    wakes without a time-out, it returns that item with true and removes
    it, from a queue that is stopped; the blocking [dequeue], woken in the
    same situation, returns the sentinel and removes nothing. *)
Theorem stop_during_timed_wait me w (x : T) (items : list T) s :
  idle s = true -> In EnvStop w -> q (cv_wait me w s) = x :: items ->
  isStopped (cv_wait me w s) = true
  /\ wait_for_dequeue me (mkTimed w no_timeout) s
     = Completed (x, true) (set_q items (cv_wait me w s))
  /\ (forall rest,
        dequeue me (w :: rest) s
        = Returned (shutdownObject s) (cv_wait me w s) rest).
Proof.
  intros Hs Hin Hq'. apply idle_inv in Hs as [Hf Hq].
  assert (Hstop : terminateFlag (cv_wait me w s) = true).
  { unfold cv_wait. simpl. apply env_run_stop_seen. now left. }
  split; [exact Hstop|]. split.
  - unfold wait_for_dequeue. rewrite Hf. cbn [during status]. now rewrite Hq'.
  - intros rest. unfold dequeue. rewrite Hf.
    rewrite dequeue_loop_woken by exact Hq.
    now rewrite Hstop, cv_wait_shutdownObject.
Qed.

(** *** A timed wait that is notified *)

(** X13 — When its wait ends without a time-out and producers have
    enqueued meanwhile, or items were queued before, [wait_for_dequeue] on
    an unstopped queue returns the oldest item with true, removes exactly
    that item and leaves the others in order. *)
Theorem wait_for_dequeue_delivers_oldest me (items : list T) (x : T)
    (rest : list T) s :
  terminateFlag s = false -> q s ++ items = x :: rest ->
  exists s',
    wait_for_dequeue me (mkTimed (producers items) no_timeout) s
    = Completed (x, true) s'
    /\ q s' = rest /\ terminateFlag s' = false.
Proof.
  intros Hf Hq.
  destruct (cv_wait_producers me items s) as [Hq' Hf'].
  rewrite Hq in Hq'. rewrite Hf in Hf'.
  unfold wait_for_dequeue. rewrite Hf. cbn [during status]. rewrite Hq'.
  eexists. split; [reflexivity|]. split; [reflexivity | exact Hf'].
Qed.

End Behaviour.

(** *** Concrete runs, on queues of strings *)

Section Runs.

Open Scope string_scope.

(** X2 (instance) — "A" and "B" are queued, the queue is cleared, and the
    producers then enqueue "C" and "D". *)
Lemma dequeue_after_clear_witness :
  let s := enqueue "B" (enqueue "A" (construct "STOP")) in
  terminateFlag s = false
  /\ exists s',
       dequeue 1 [producers ["C"; "D"]] (clear s) = Returned "C" s' []
       /\ q s' = ["D"] /\ terminateFlag s' = false.
Proof.
  intros s. split; [reflexivity|].
  exact (proj2 (@dequeue_after_clear string 1 s eq_refl) "C" ["D"] []).
Defined.

(** X3 (instance) — a spurious wake-up, a [wakeWaiters], and an item that
    another consumer took before the caller ran. *)
Lemma dequeue_sleeps_through_uneventful_wakeups_witness :
  let wakes := [[]; [EnvWakeWaiters]; [EnvBlock 2; EnvNonBlockingDequeue]] in
  idle (construct "STOP") = true
  /\ forallb uneventful wakes = true
  /\ dequeue 1 wakes (construct "STOP")
     = Blocked (sleep 1 (cv_waits 1 wakes (construct "STOP"))).
Proof.
  intros wakes. split; [reflexivity|]. split; [reflexivity|].
  exact (proj1 (@dequeue_sleeps_through_uneventful_wakeups string 1 wakes
                  (construct "STOP") eq_refl eq_refl)).
Defined.

(** X4 (instance) — [wait()] on a fresh queue, woken spuriously. *)
Lemma wait_returns_at_first_wakeup_witness :
  idle (construct "STOP") = true
  /\ wait 1 [[]] (construct "STOP")
     = Returned tt (cv_wait 1 [] (construct "STOP")) []
  /\ idle (cv_wait 1 [] (construct "STOP")) = true
  /\ idle (enqueue "A" (construct "STOP")) = false
  /\ wait 1 [] (enqueue "A" (construct "STOP"))
     = Returned tt (enqueue "A" (construct "STOP")) [].
Proof.
  pose proof (proj2 (@wait_returns_at_first_wakeup string 1 (construct "STOP"))
                eq_refl) as [_ Hw].
  destruct (Hw [] []) as [Hret Hidle].
  split; [reflexivity|]. split; [exact Hret|]. split; [exact (Hidle eq_refl)|].
  split; [reflexivity|].
  exact (proj1 (@wait_returns_at_first_wakeup string 1
                  (enqueue "A" (construct "STOP"))) eq_refl []).
Defined.

(** X5 (instance) — a stopped queue that holds "X", and a fresh queue with
    a spurious wake-up. *)
Lemma wait_timeout_true_without_data_witness :
  let s := stop (enqueue "X" (construct "STOP")) in
  terminateFlag s = true /\ q s = ["X"]
  /\ wait_timeout 1 (mkTimed [] timeout) s = (true, s)
  /\ dequeue 1 [] s = Returned "STOP" s []
  /\ idle (construct "STOP") = true
  /\ fst (wait_timeout 1 (mkTimed [] no_timeout) (construct "STOP")) = true.
Proof.
  intros s.
  pose proof (@wait_timeout_true_without_data string _ 1 (mkTimed [] timeout) s)
    as (Hstopped & _).
  destruct (Hstopped "X" [] eq_refl eq_refl) as (Hw & Hd & _).
  pose proof (@wait_timeout_true_without_data string _ 1
                (mkTimed [] no_timeout) (construct "STOP"))
    as (_ & Hidle & _).
  destruct (Hidle eq_refl eq_refl eq_refl) as (Ht & _).
  split; [reflexivity|]. split; [reflexivity|]. split; [exact Hw|].
  split; [exact (Hd [])|]. split; [reflexivity | exact Ht].
Defined.

(** X7 (instance) — an empty queue. *)
Lemma size_and_isEmpty_witness :
  (Z.of_nat (length (q (construct "STOP"))) < 2 ^ UINT_BITS)%Z
  /\ size (construct "STOP") = 0%Z
  /\ isEmpty (construct "STOP") = true.
Proof.
  split; [reflexivity|]. split; [reflexivity|].
  exact (proj2 (proj2 (proj2 (@size_and_isEmpty string (construct "STOP"))))
           eq_refl eq_refl).
Defined.

(** X8 (instance) — "late" is enqueued on a stopped, empty queue. *)
Lemma enqueue_on_stopped_queue_witness :
  let s := stop (construct "STOP") in
  terminateFlag s = true /\ q s = []
  /\ q (enqueue "late" s) = ["late"]
  /\ dequeue 1 [] (enqueue "late" s) = Returned "STOP" (enqueue "late" s) []
  /\ fst (nonBlockingDequeue (enqueue "late" s)) = ("late", true).
Proof.
  intros s.
  destruct (@enqueue_on_stopped_queue string _ "late" s eq_refl)
    as (Hq & _ & Hd & _ & Hn).
  split; [reflexivity|]. split; [reflexivity|]. split; [exact Hq|].
  split; [exact (Hd 1 []) | exact (Hn eq_refl)].
Defined.

(** X9 (instance) — items come and go, the queue is cleared; the sentinel
    is still the constructor's argument. *)
Lemma shutdownObject_never_changes_witness :
  exists vs s',
    run_calls [CallEnqueue "A"; CallDequeue 1 []; CallEnqueue "B"; CallClear;
               CallWaitForDequeue 1 (mkTimed [EnvEnqueue "C"] no_timeout)]
      (construct "STOP") = Some (vs, s')
    /\ shutdownObject s' = "STOP"
    /\ dequeue 1 [] (stop s') = Returned "STOP" (stop s') [].
Proof.
  eexists. eexists. split; [reflexivity|].
  match goal with
  | |- shutdownObject ?s = _ /\ _ =>
      pose proof (@shutdownObject_never_changes string _ "STOP"
        [CallEnqueue "A"; CallDequeue 1 []; CallEnqueue "B"; CallClear;
         CallWaitForDequeue 1 (mkTimed [EnvEnqueue "C"] no_timeout)]
        _ s eq_refl) as (Hs & _ & Hd)
  end.
  split; [exact Hs | exact (Hd 1 [])].
Defined.

(** X10 (instance) — enqueues, dequeues, a clear and a [wakeWaiters]. *)
Lemma only_stop_sets_the_flag_witness :
  let ks := [CallEnqueue "A"; CallDequeue 1 []; CallClear; CallWakeWaiters;
             CallDequeue 1 [[EnvEnqueue "B"]]; CallNonBlockingDequeue] in
  forallb stop_free ks = true
  /\ exists vs s',
       run_calls ks (construct "STOP") = Some (vs, s')
       /\ isStopped s' = false.
Proof.
  intros ks. split; [reflexivity|].
  eexists. eexists. split; [reflexivity|].
  match goal with
  | |- isStopped ?s = _ =>
      exact (proj1 (@only_stop_sets_the_flag string _ "STOP" ks _ s
                      eq_refl eq_refl))
  end.
Defined.

(** X11 (instance) — "X" is enqueued and the queue is stopped while the
    caller waits. *)
Lemma stop_during_timed_wait_witness :
  let w := [EnvEnqueue "X"; EnvStop] in
  idle (construct "STOP") = true
  /\ In EnvStop w
  /\ q (cv_wait 1 w (construct "STOP")) = ["X"]
  /\ wait_for_dequeue 1 (mkTimed w no_timeout) (construct "STOP")
     = Completed ("X", true) (set_q [] (cv_wait 1 w (construct "STOP")))
  /\ dequeue 1 [w] (construct "STOP")
     = Returned "STOP" (cv_wait 1 w (construct "STOP")) [].
Proof.
  intros w.
  assert (Hin : In EnvStop w) by (right; left; reflexivity).
  destruct (@stop_during_timed_wait string _ 1 w "X" [] (construct "STOP")
              eq_refl Hin eq_refl) as (_ & Hw & Hd).
  split; [reflexivity|]. split; [exact Hin|]. split; [reflexivity|].
  split; [exact Hw | exact (Hd [])].
Defined.

(** X13 (instance) — "A" is queued and "B" arrives during the wait. *)
Lemma wait_for_dequeue_delivers_oldest_witness :
  let s := enqueue "A" (construct "STOP") in
  terminateFlag s = false
  /\ (q s ++ ["B"])%list = ["A"; "B"]
  /\ exists s',
       wait_for_dequeue 1 (mkTimed (producers ["B"]) no_timeout) s
       = Completed ("A", true) s'
       /\ q s' = ["B"] /\ terminateFlag s' = false.
Proof.
  intros s. split; [reflexivity|]. split; [reflexivity|].
  exact (@wait_for_dequeue_delivers_oldest string _ 1 ["B"] "A" ["B"] s
           eq_refl eq_refl).
Defined.

End Runs.

End QueueBehaviour.

(** ** Further behaviour of WheeledThreadPool::run *)

Module PoolBehaviour.

Import Queue Pool PoolProperties.

Lemma list_sum_alter {A} (f : A -> nat) (g : A -> A) (l : list A) :
  forall i x, l !! i = Some x ->
  list_sum (map f (alter g i l)) + f x = list_sum (map f l) + f (g x).
Proof.
  induction l as [|y l IH]; intros i x Hl; [discriminate|].
  destruct i as [|i].
  - injection Hl as ->.
    change (alter g 0 (x :: l)) with (g x :: l). unfold list_sum in *. cbn [map fold_right]. lia.
  - specialize (IH i x Hl).
    change (alter g (S i) (y :: l)) with (y :: alter g i l).
    unfold list_sum in *. cbn [map fold_right]. lia.
Qed.

Lemma run_queued_total N task p :
  wheel_ok N p -> queued_total (run task p) = S (queued_total p).
Proof.
  intros (Hlen & Hcur & _). unfold queued_total, run. simpl.
  destruct (lookup_lt_is_Some_2 (wheelySpokes (threadPooledFunctions p))
              (currentElement (threadPooledFunctions p))) as [s Hs]; [lia|].
  pose proof (list_sum_alter (fun s : spoke => length (q s)) (enqueue task)
                _ _ Hs) as E.
  simpl in E. rewrite length_app in E. simpl in E.
  unfold spoke in *. lia.
Qed.

(** X12 — [run] only queues: it neither starts the pool nor needs it
    started.  Whatever number of tasks is submitted, [isStarted], [tpLock]
    and [queueMonitors] are as before, and every task is stored on a spoke:
    each spoke holds what it held followed by its share of the submitted
    tasks, in submission order, the shares of the spokes being the
    submitted tasks, each one once (so the spokes hold that many tasks
    more, all together); the cursor of the ring has advanced by the number
    of tasks, modulo the number of spokes. *)
Theorem run_queues_without_startup (N : nat) (tasks : list function) :
  forall p, wheel_ok N p ->
  isStarted (run_all tasks p) = isStarted p
  /\ tpLock (run_all tasks p) = tpLock p
  /\ queueMonitors (run_all tasks p) = queueMonitors p
  /\ queued_total (run_all tasks p) = queued_total p + length tasks
  /\ currentElement (threadPooledFunctions (run_all tasks p))
     = (currentElement (threadPooledFunctions p) + length tasks) mod N
  /\ (forall i,
        queued i (run_all tasks p)
        = queued i p
          ++ share N i (currentElement (threadPooledFunctions p)) tasks)
  /\ concat (map (fun i =>
                    share N i (currentElement (threadPooledFunctions p)) tasks)
               (seq 0 N)) ≡ₚ tasks.
Proof.
  intros p Hok.
  assert (Hframe :
    isStarted (run_all tasks p) = isStarted p
    /\ tpLock (run_all tasks p) = tpLock p
    /\ queueMonitors (run_all tasks p) = queueMonitors p
    /\ queued_total (run_all tasks p) = queued_total p + length tasks
    /\ currentElement (threadPooledFunctions (run_all tasks p))
       = (currentElement (threadPooledFunctions p) + length tasks) mod N).
  { revert p Hok. induction tasks as [|t tasks IH]; intros p Hok.
    - simpl. rewrite !Nat.add_0_r. repeat split; trivial.
      destruct Hok as (_ & Hcur & _). now rewrite Nat.mod_small.
    - destruct (@run_queued N t p 0 Hok) as (_ & Hcur & Hok').
      destruct (IH (run t p) Hok') as (Hs & Hl & Hm & Ht & Hc).
      change (run_all (t :: tasks) p) with (run_all tasks (run t p)).
      rewrite Hs, Hl, Hm, Ht, Hc, Hcur, (run_queued_total t Hok).
      repeat split; trivial.
      + simpl. lia.
      + rewrite Nat.Div0.add_mod_idemp_l. f_equal. simpl. lia. }
  destruct Hframe as (Hs & Hl & Hm & Ht & Hc).
  split; [exact Hs|]. split; [exact Hl|]. split; [exact Hm|].
  split; [exact Ht|]. split; [exact Hc|]. split.
  - intros i. exact (proj1 (run_all_queued tasks i Hok)).
  - apply shares_partition. destruct Hok as (_ & Hcur & _). lia.
Qed.

(** X12 (instance) — six tasks submitted to the pool of the header before
    [startup] was ever called. *)
Lemma run_queues_without_startup_witness :
  let p := run_all (map Job (seq 1 6)) (initial nThreads) in
  wheel_ok nThreads (initial nThreads)
  /\ isStarted p = false
  /\ queueMonitors p = []
  /\ queued_total p = 6
  /\ currentElement (threadPooledFunctions p) = 2
  /\ queued 1 p = [Job 2; Job 6].
Proof.
  intros p.
  assert (Hok : wheel_ok nThreads (initial nThreads))
    by (apply initial_ok; unfold nThreads; lia).
  destruct (@run_queues_without_startup nThreads (map Job (seq 1 6))
              (initial nThreads) Hok) as (Hs & _ & Hm & Ht & Hc & Hq & _).
  split; [exact Hok|]. split; [exact Hs|]. split; [exact Hm|].
  split; [exact Ht|]. split; [exact Hc | exact (Hq 1)].
Defined.

End PoolBehaviour.
